(** * Distance-sensor pose reset (src/distance_reset.cpp)

    A shallow embedding of the four operations of [distance_reset.cpp]:
    [resetPositionAndHeadingBack], [resetPositionLeft], [resetPositionRight]
    and [driveUntilDistance].

    Conventions of the embedding.
    - A C++ [double] is a real number ([R]): arithmetic is exact, rounding
      error is not represented.  [M_PI] is [PI]; [cos] is the real cosine;
      [atan2], [fmod] and [round] follow their C definitions over the reals.
    - A C++ [int] is an integer ([Z]) in the 32-bit range.  The conversion
      [(int)d] truncates toward zero and is undefined when the truncated
      value does not fit; signed overflow is undefined.  Undefined behaviour
      is the result [None].
    - [%] on [int] is the truncated remainder [Z.rem].
    - The collaborators ([chassis], [printf], [pros::delay]) are a record
      holding the odometry pose and the list of calls made so far, in order.
      The pose is owned by the tracking task of the chassis, which runs
      while the caller sleeps in [pros::delay]; what it does to the pose
      then is an argument ([Odometry]).  The reset operations never sleep.
    - A reset operation calls [get()] once on each sensor: the sensor is the
      millimetre value that call returns.  [driveUntilDistance] calls it
      repeatedly: the sensor is the sequence of values returned, indexed by
      the number of calls made before.
    - [applyCurve] (src/src/curves.cpp) truncates a product that sits at or
      next to whole numbers, where rounding decides the result: its
      [double]s are binary64 numbers (primitive floats), and the functions
      of [<cmath>] it calls are arguments.
    - [OuttakeControl] (src/src/subsystems/outtake.cpp) and [shakeBot]
      (src/src/autonomous.cpp) read the buttons and the clock: what those
      reads return is an argument, and the motor and piston commands are
      the list returned. *)

From Stdlib Require Import Reals Lra Lia ZArith List Bool Zfloor.
From Equations Require Import Equations.
From Stdlib Require Floats String.
Import ListNotations.

#[local] Open Scope R_scope.

(** ** C numeric types *)

Module CInt.

Definition INT_MIN : Z := (-2147483648)%Z.
Definition INT_MAX : Z := 2147483647%Z.

Definition in_range (z : Z) : bool :=
  ((INT_MIN <=? z) && (z <=? INT_MAX))%Z.

(** The result of an [int] operation: undefined outside the range. *)
Definition checked (z : Z) : option Z :=
  if in_range z then Some z else None.

(** Truncation toward zero of a real. *)
Definition trunc (d : R) : Z :=
  if Rle_dec 0 d then Zfloor d else Zceil d.

(** [(int)d]. *)
Definition of_double (d : R) : option Z := checked (trunc d).

End CInt.

Module Double.

Definition ltb (a b : R) : bool := if Rlt_dec a b then true else false.
Definition leb (a b : R) : bool := if Rle_dec a b then true else false.

(** [<cmath>] over the reals. *)
Definition M_PI : R := PI.

Definition fmod (a b : R) : R := a - IZR (CInt.trunc (a / b)) * b.

(** Nearest integer, halfway cases away from zero. *)
Definition round (a : R) : R :=
  if Rle_dec 0 a then IZR (Zfloor (a + / 2)) else IZR (Zceil (a - / 2)).

Definition atan2 (b a : R) : R :=
  if Rlt_dec 0 a then atan (b / a)
  else if Rlt_dec a 0 then
         (if Rle_dec 0 b then atan (b / a) + PI else atan (b / a) - PI)
  else if Rlt_dec 0 b then PI / 2
  else if Rlt_dec b 0 then - PI / 2
  else 0.

End Double.

Infix "<?" := Double.ltb (at level 70, no associativity) : R_scope.
Infix "<=?" := Double.leb (at level 70, no associativity) : R_scope.

(** [PROS_ERR] is [INT32_MAX] (pros/error.h). *)
Definition PROS_ERR : Z := 2147483647%Z.

(** ** Collaborators *)

(** [lemlib::Pose]. *)
Record Pose : Type := mkPose { x : R; y : R; theta : R }.

Inductive BrakeMode : Type :=
| E_MOTOR_BRAKE_COAST
| E_MOTOR_BRAKE_BRAKE
| E_MOTOR_BRAKE_HOLD.

(** What a [printf] of the file prints: the format and its arguments. *)
Inductive Diagnostic : Type :=
| InvalidBack (d_left d_right : R)
| InvalidLeft (sensorReading : R)
| InvalidRight (sensorReading : R)
| ResetReport (actualPos corrected_heading angle_to_wall_deg : R).

Inductive Call : Type :=
| getPose
| setPose (new_x new_y new_theta : R)
| tank (left right : Z) (disableDriveCurve : bool)
| setBrakeMode (mode : BrakeMode)
| delay (ms : Z)
| printf (d : Diagnostic).

Record Robot : Type := mkRobot { pose : Pose; calls : list Call }.

Definition call (c : Call) (st : Robot) : Robot :=
  mkRobot (pose st) (calls st ++ [c]).

(** [chassis.setPose(x, y, theta)] overwrites the odometry pose. *)
Definition chassis_setPose (nx ny nt : R) (st : Robot) : Robot :=
  mkRobot (mkPose nx ny nt) (calls st ++ [setPose nx ny nt]).

(** [chassis.getPose()] leaves the pose as it is. *)
Definition chassis_getPose (st : Robot) : Pose * Robot :=
  (pose st, call getPose st).

(** ** resetPositionAndHeadingBack *)

(** The locals of one run, from the validated readings to the corrected
    pose. *)
Record BackLocals : Type := mkBackLocals {
  b_angle_to_wall_rad : R;
  b_angle_to_wall_deg : R;
  b_corrected_distance : R;
  b_headingDeg : Z;
  b_resettingX : bool;
  b_wallSign : R;
  b_expected_perpendicular_heading : R;
  b_actualPos : R;
  b_corrected_heading : R
}.

(** Lines 79-102: the ladder on [headingDeg]. *)
Definition back_wall (headingDeg : Z) : bool * R * R :=
  if ((headingDeg >=? 315) || (headingDeg <=? 45))%Z then
    (false, 1, 180)
  else if ((headingDeg >? 45) && (headingDeg <=? 135))%Z then
    (true, 1, 270)
  else if ((headingDeg >? 135) && (headingDeg <=? 225))%Z then
    (false, -1, 0)
  else
    (true, -1, 90).

(** Lines 59-113, after the readings were accepted. *)
Definition back_locals (d_left d_right sensor_spacing left_offset right_offset
                        field_half : R) (p : Pose) : option BackLocals :=
  let angle_to_wall_rad := Double.atan2 (d_right - d_left) sensor_spacing in
  let angle_to_wall_deg := angle_to_wall_rad * 180 / Double.M_PI in
  let avg_offset := (left_offset + right_offset) / 2 in
  let avg_reading := (d_left + d_right) / 2 in
  let corrected_distance := avg_reading * cos angle_to_wall_rad + avg_offset in
  let back_heading_deg := theta p + 180 in
  match CInt.of_double back_heading_deg with
  | None => None
  | Some t =>
      let headingDeg := Z.rem (Z.rem t 360 + 360) 360 in
      let '(resettingX, wallSign, expected_perpendicular_heading) :=
        back_wall headingDeg in
      let actualPos := wallSign * (field_half - corrected_distance) in
      let corrected_heading :=
        expected_perpendicular_heading - angle_to_wall_deg in
      let corrected_heading := Double.fmod (corrected_heading + 360) 360 in
      Some (mkBackLocals angle_to_wall_rad angle_to_wall_deg
              corrected_distance headingDeg resettingX wallSign
              expected_perpendicular_heading actualPos corrected_heading)
  end.

Definition resetPositionAndHeadingBack (back_left back_right : Z)
    (sensor_spacing left_offset right_offset field_half : R)
    (st : Robot) : option Robot :=
  let d_left := IZR back_left / 25.4 in
  let d_right := IZR back_right / 25.4 in
  if (d_left <? 0) || (200 <? d_left) || (d_right <? 0) || (200 <? d_right)
  then Some (call (printf (InvalidBack d_left d_right)) st)
  else
    let '(p, st) := chassis_getPose st in
    match back_locals d_left d_right sensor_spacing left_offset right_offset
            field_half p with
    | None => None
    | Some l =>
        let new_x := if b_resettingX l then b_actualPos l else x p in
        let new_y := if b_resettingX l then y p else b_actualPos l in
        let st := chassis_setPose new_x new_y (b_corrected_heading l) st in
        Some (call (printf (ResetReport (b_actualPos l) (b_corrected_heading l)
                              (b_angle_to_wall_deg l))) st)
    end.

(** ** resetPositionLeft and resetPositionRight *)

Record SideLocals : Type := mkSideLocals {
  s_sensor_heading_deg : R;
  s_headingDeg : Z;
  s_angle_off_deg : R;
  s_corrected_distance : R;
  s_resettingX : bool;
  s_wallSign : R;
  s_actualPos : R
}.

(** Lines 161-164. *)
Definition left_wall (headingDeg : Z) : bool * R :=
  if ((headingDeg >=? 315) || (headingDeg <=? 45))%Z then (false, 1)
  else if ((headingDeg >? 45) && (headingDeg <=? 135))%Z then (true, 1)
  else if ((headingDeg >? 135) && (headingDeg <=? 225))%Z then (false, -1)
  else (true, -1).

(** Lines 209-212. *)
Definition right_wall (headingDeg : Z) : bool * R :=
  if ((headingDeg >=? 315) || (headingDeg <=? 45))%Z then (false, 1)
  else if ((headingDeg >? 45) && (headingDeg <=? 135))%Z then (true, 1)
  else if ((headingDeg >? 135) && (headingDeg <=? 225))%Z then (false, -1)
  else (true, -1).

(** Lines 146-166. *)
Definition left_locals (sensorReading sensor_offset field_half : R)
    (p : Pose) : option SideLocals :=
  let sensor_heading_deg := theta p + 270 in
  match CInt.of_double sensor_heading_deg with
  | None => None
  | Some t =>
      let headingDeg := Z.rem (Z.rem t 360 + 360) 360 in
      let nearest_perpendicular :=
        Double.round (sensor_heading_deg / 90) * 90 in
      let angle_off_deg := sensor_heading_deg - nearest_perpendicular in
      let angle_off_rad := angle_off_deg * Double.M_PI / 180 in
      let corrected_distance :=
        sensorReading * cos angle_off_rad + sensor_offset in
      let '(resettingX, wallSign) := left_wall headingDeg in
      let actualPos := wallSign * (field_half - corrected_distance) in
      Some (mkSideLocals sensor_heading_deg headingDeg angle_off_deg
              corrected_distance resettingX wallSign actualPos)
  end.

(** Lines 195-214. *)
Definition right_locals (sensorReading sensor_offset field_half : R)
    (p : Pose) : option SideLocals :=
  let sensor_heading_deg := theta p + 90 in
  match CInt.of_double sensor_heading_deg with
  | None => None
  | Some t =>
      let headingDeg := Z.rem (Z.rem t 360 + 360) 360 in
      let nearest_perpendicular :=
        Double.round (sensor_heading_deg / 90) * 90 in
      let angle_off_deg := sensor_heading_deg - nearest_perpendicular in
      let angle_off_rad := angle_off_deg * Double.M_PI / 180 in
      let corrected_distance :=
        sensorReading * cos angle_off_rad + sensor_offset in
      let '(resettingX, wallSign) := right_wall headingDeg in
      let actualPos := wallSign * (field_half - corrected_distance) in
      Some (mkSideLocals sensor_heading_deg headingDeg angle_off_deg
              corrected_distance resettingX wallSign actualPos)
  end.

Definition resetPositionLeft (sensor : Z) (sensor_offset field_half : R)
    (st : Robot) : option Robot :=
  let sensorReading := IZR sensor / 25.4 in
  if (sensorReading <? 0) || (200 <? sensorReading)
  then Some (call (printf (InvalidLeft sensorReading)) st)
  else
    let '(p, st) := chassis_getPose st in
    match left_locals sensorReading sensor_offset field_half p with
    | None => None
    | Some l =>
        let new_x := if s_resettingX l then s_actualPos l else x p in
        let new_y := if s_resettingX l then y p else s_actualPos l in
        Some (chassis_setPose new_x new_y (theta p) st)
    end.

Definition resetPositionRight (sensor : Z) (sensor_offset field_half : R)
    (st : Robot) : option Robot :=
  let sensorReading := IZR sensor / 25.4 in
  if (sensorReading <? 0) || (200 <? sensorReading)
  then Some (call (printf (InvalidRight sensorReading)) st)
  else
    let '(p, st) := chassis_getPose st in
    match right_locals sensorReading sensor_offset field_half p with
    | None => None
    | Some l =>
        let new_x := if s_resettingX l then s_actualPos l else x p in
        let new_y := if s_resettingX l then y p else s_actualPos l in
        Some (chassis_setPose new_x new_y (theta p) st)
    end.

(** ** driveUntilDistance *)

(** Lines 246-251 at the [k]-th call of [sensor.get()]: whether the body
    reaches [break], and the number of calls of [get()] it made. *)
Definition poll (sensor : nat -> Z) (threshold_in : R) (k : nat) : bool * nat :=
  if negb (sensor k =? PROS_ERR)%Z then
    let reading := IZR (sensor (S k)) / 25.4 in
    if (0 <? reading) && (reading <=? threshold_in) then (true, 2%nat)
    else (false, 2%nat)
  else (false, 1%nat).

(** How the loop of lines 244-255 was left. *)
Record LoopExit : Type := mkLoopExit {
  exit_elapsed : Z;        (* the local [elapsed] *)
  exit_iterations : nat;   (* times the body was entered *)
  exit_reads : nat;        (* calls of [sensor.get()] made *)
  exit_break : bool;       (* left by [break] *)
  exit_robot : Robot
}.

(** Lines 244-255, from the state where [elapsed], [k] calls of [get()] and
    [n] entries of the body were made. *)
Equations? poll_loop (sensor : nat -> Z) (threshold_in : R) (timeout_ms : Z)
    (elapsed : Z) (k n : nat) (st : Robot) : option LoopExit
    by wf (Z.to_nat (timeout_ms - elapsed)) lt :=
  poll_loop sensor threshold_in timeout_ms elapsed k n st
    with Z_lt_dec elapsed timeout_ms := {
    | right _ => Some (mkLoopExit elapsed n k false st)
    | left _ =>
        if fst (poll sensor threshold_in k) then
          Some (mkLoopExit elapsed (S n)
                  (k + snd (poll sensor threshold_in k)) true st)
        else if CInt.in_range (elapsed + 10) then
          poll_loop sensor threshold_in timeout_ms (elapsed + 10)
            (k + snd (poll sensor threshold_in k)) (S n) (call (delay 10) st)
        else None
    }.
Proof. lia. Qed.

Definition driveUntilDistance (sensor : nat -> Z) (threshold_in : R)
    (speed : Z) (forwards : bool) (timeout_ms : Z) (st : Robot) : option Robot :=
  let direction := if forwards then 1%Z else (-1)%Z in
  let elapsed := 0%Z in
  match CInt.checked (direction * speed) with
  | None => None
  | Some out =>
      let st := call (tank out out true) st in
      match poll_loop sensor threshold_in timeout_ms elapsed 0 0 st with
      | None => None
      | Some e =>
          let st := call (setBrakeMode E_MOTOR_BRAKE_HOLD) (exit_robot e) in
          Some (call (tank 0 0 true) st)
      end
  end.

(** ** The odometry task *)

(** The pose belongs to the tracking task of the chassis (lemlib), which
    integrates it while the calling task sleeps in [pros::delay] (section 5
    of the specification: the delay lets the other tasks run between
    polls).  What that task computes is not in this repository:
    [odometry n p] is the estimate it leaves at the end of the [n]-th delay
    of a run (counted from 0) that it entered with the estimate [p]. *)
Definition Odometry : Type := nat -> Pose -> Pose.

(** [pros::delay(ms)], the [n]-th of a run, with the tracking task
    running. *)
Definition pros_delay (odometry : Odometry) (n : nat) (ms : Z)
    (st : Robot) : Robot :=
  mkRobot (odometry n (pose st)) (calls st ++ [delay ms]).

(** Lines 244-255 with the tracking task running during each delay. *)
Equations? poll_loop_odom (odometry : Odometry) (sensor : nat -> Z)
    (threshold_in : R) (timeout_ms : Z) (elapsed : Z) (k n : nat)
    (st : Robot) : option LoopExit
    by wf (Z.to_nat (timeout_ms - elapsed)) lt :=
  poll_loop_odom odometry sensor threshold_in timeout_ms elapsed k n st
    with Z_lt_dec elapsed timeout_ms := {
    | right _ => Some (mkLoopExit elapsed n k false st)
    | left _ =>
        if fst (poll sensor threshold_in k) then
          Some (mkLoopExit elapsed (S n)
                  (k + snd (poll sensor threshold_in k)) true st)
        else if CInt.in_range (elapsed + 10) then
          poll_loop_odom odometry sensor threshold_in timeout_ms
            (elapsed + 10) (k + snd (poll sensor threshold_in k)) (S n)
            (pros_delay odometry n 10 st)
        else None
    }.
Proof. lia. Qed.

(** [driveUntilDistance] (lines 236-260) with the tracking task running
    during the delays of its loop. *)
Definition driveUntilDistance_odom (odometry : Odometry) (sensor : nat -> Z)
    (threshold_in : R) (speed : Z) (forwards : bool) (timeout_ms : Z)
    (st : Robot) : option Robot :=
  let direction := if forwards then 1%Z else (-1)%Z in
  let elapsed := 0%Z in
  match CInt.checked (direction * speed) with
  | None => None
  | Some out =>
      let st := call (tank out out true) st in
      match poll_loop_odom odometry sensor threshold_in timeout_ms elapsed
              0 0 st with
      | None => None
      | Some e =>
          let st := call (setBrakeMode E_MOTOR_BRAKE_HOLD) (exit_robot e) in
          Some (call (tank 0 0 true) st)
      end
  end.

(** The estimate the tracking task leaves after the delays [n], ...,
    [n + j - 1], entered with the estimate [p]. *)
Fixpoint odometry_run (odometry : Odometry) (n j : nat) (p : Pose) : Pose :=
  match j with
  | O => p
  | S j' => odometry_run odometry (S n) j' (odometry n p)
  end.

(** What the caller of the loop observes of an exit, the pose apart. *)
Definition exit_view (e : LoopExit) : Z * nat * nat * bool * list Call :=
  (exit_elapsed e, exit_iterations e, exit_reads e, exit_break e,
   calls (exit_robot e)).

(** ** The walls of the specification *)

Inductive Wall : Type := TOP | RIGHT | BOTTOM | LEFT.

Inductive Axis : Type := AxisX | AxisY.

Definition wall_axis (w : Wall) : Axis :=
  match w with TOP | BOTTOM => AxisY | RIGHT | LEFT => AxisX end.

Definition wall_sign (w : Wall) : R :=
  match w with TOP | RIGHT => 1 | BOTTOM | LEFT => -1 end.

(** The flags [(resettingX, wallSign)] by which the code names a wall. *)
Definition wall_flags (w : Wall) : bool * R :=
  (match wall_axis w with AxisX => true | AxisY => false end, wall_sign w).

(** The direction, in degrees, of the outward normal of a wall: the heading
    of a face that looks squarely at it. *)
Definition wall_direction (w : Wall) : Z :=
  match w with TOP => 0 | RIGHT => 90 | BOTTOM => 180 | LEFT => 270 end%Z.

(** Normalization of a heading to [[0,360)]. *)
Definition normalize360 (e : R) : R := e - 360 * IZR (Zfloor (e / 360)).

(** The partition of section 4.1 on a normalized real heading. *)
Definition in_partition (a : R) (w : Wall) : Prop :=
  match w with
  | TOP => 315 <= a < 360 \/ 0 <= a <= 45
  | RIGHT => 45 < a <= 135
  | BOTTOM => 135 < a <= 225
  | LEFT => 225 < a < 315
  end.

(** The same partition on whole degrees. *)
Definition in_partition_Z (n : Z) (w : Wall) : Prop :=
  match w with
  | TOP => 315 <= n < 360 \/ 0 <= n <= 45
  | RIGHT => 45 < n <= 135
  | BOTTOM => 135 < n <= 225
  | LEFT => 225 < n < 315
  end%Z.

(** [headingDeg] as the three operations compute it from the effective
    heading: [((int)e % 360 + 360) % 360]. *)
Definition headingDeg_of (e : R) : option Z :=
  match CInt.of_double e with
  | None => None
  | Some t => Some (Z.rem (Z.rem t 360 + 360) 360)
  end.

(** The plausibility window of section 3. *)
Definition plausible (d : R) : Prop := 0 < d <= 200.

(** The guard of the three operations, as the code has it. *)
Definition rejected (d : R) : Prop := d < 0 \/ 200 < d.

(** The heading of a robot whose back squarely faces a wall. *)
Definition expected_heading (w : Wall) : R :=
  match w with TOP => 180 | RIGHT => 270 | BOTTOM => 0 | LEFT => 90 end.

(** No poll of the sensor reaches [break]. *)
Definition never_stops (sensor : nat -> Z) (threshold_in : R) : Prop :=
  forall k, fst (poll sensor threshold_in k) = false.

(** The calls a run of [driveUntilDistance] may make. *)
Definition drive_call (c : Call) : Prop :=
  match c with
  | tank _ _ _ | setBrakeMode _ | delay _ => True
  | getPose | setPose _ _ _ | printf _ => False
  end.

(** C6 as stated, for one timeout: on every sensor the loop is left after
    at most [ceil (timeout_ms / 10)] entries of its body and, when no poll
    reaches [break], with [timeout_ms <= elapsed < timeout_ms + 10]. *)
Definition polling_bound (tmo : Z) : Prop :=
  forall (sensor : nat -> Z) (th : R) (st : Robot),
  exists e,
    poll_loop sensor th tmo 0 0 0 st = Some e /\
    (Z.of_nat (exit_iterations e) <= (tmo + 9) / 10)%Z /\
    (never_stops sensor th -> (tmo <= exit_elapsed e < tmo + 10)%Z).

(** The number of calls of [sensor.get()] made before the [j]-th entry of
    the loop body (counted from 0), when none of the earlier entries
    reached [break]. *)
Fixpoint reads_before (sensor : nat -> Z) (threshold_in : R) (j : nat) : nat :=
  match j with
  | O => O
  | S j' =>
      let k := reads_before sensor threshold_in j' in
      (k + snd (poll sensor threshold_in k))%nat
  end.

(** ** Joystick curves (src/src/curves.cpp) *)

Module Curves.
Import PrimFloat FloatOps SpecFloat.
Import String.
#[local] Open Scope float_scope.
#[local] Set Warnings "-inexact-float".

(** An [int] as a [double]: exact below 2^53. *)
Definition of_int (z : Z) : float :=
  if (z <? 0)%Z then - of_uint63 (Uint63.of_Z (- z))
  else of_uint63 (Uint63.of_Z z).

(** [static_cast<int>(d)]: truncation toward zero, undefined for a value
    that is not finite or whose truncation is not an [int]. *)
Definition to_int (d : float) : option Z :=
  match Prim2SF d with
  | S754_zero _ => Some 0%Z
  | S754_finite s m e =>
      let mag := match e with
                 | Zneg p => Z.shiftr (Zpos m) (Zpos p)
                 | _ => Z.shiftl (Zpos m) e
                 end in
      let t := if s then (- mag)%Z else mag in
      if ((-2147483648 <=? t) && (t <=? 2147483647))%Z then Some t else None
  | S754_infinity _ | S754_nan => None
  end.

(** [std::clamp(v, lo, hi)]. *)
Definition clamp (v lo hi : Z) : Z :=
  if (v <? lo)%Z then lo else if (hi <? v)%Z then hi else v.

(** The enumerators that curves.cpp switches over. *)
Inductive CurveType : Type :=
| LINEAR
| SQUARED
| CUBED
| EXPONENTIAL
| S_CURVE
| PIECEWISE
| PLATEAU.

(** Lines 10-113.  [exp] and [tanh] are [std::exp] and [std::tanh]. *)
Definition applyCurve (exp tanh : float -> float) (input : Z)
    (curve : CurveType) (param : float) : option Z :=
  let input := clamp input (-127) 127 in
  let x := of_int input / 127 in
  let sign := if x <? 0 then -1 else 1 in
  let ax := abs x in
  let result :=
    match curve with
    | LINEAR => ax
    | SQUARED => ax * ax
    | CUBED => ax * ax * ax
    | EXPONENTIAL =>
        let k := if 0.01 <? param then param else 1.5 in
        (exp (k * ax) - 1) / (exp k - 1)
    | S_CURVE =>
        let k := 3 in
        let raw := tanh (k * (ax - 0.5)) in
        let lo := tanh (k * (0 - 0.5)) in
        let hi := tanh (k * (1 - 0.5)) in
        (raw - lo) / (hi - lo)
    | PIECEWISE =>
        let bp := if 0.01 <? param then param else 0.3 in
        let low_out := 0.15 in
        if ax <=? bp then (low_out / bp) * ax
        else low_out + ((1 - low_out) / (1 - bp)) * (ax - bp)
    | PLATEAU =>
        let p_start := 0.40 in
        let p_end := 0.82 in
        let v_start := 0.66 in
        let v_end := 0.80 in
        if ax <=? p_start then (ax * ax) / (p_start * p_start) * v_start
        else if ax <=? p_end then
          v_start + (ax - p_start) * ((v_end - v_start) / (p_end - p_start))
        else v_end + (ax - p_end) * ((1 - v_end) / (1 - p_end))
    end in
  match to_int (sign * result * 127) with
  | None => None
  | Some output => Some (clamp output (-127) 127)
  end.

(** Lines 116-127. *)
Definition getCurveName (curve : CurveType) : String.string :=
  match curve with
  | LINEAR => "Linear"
  | SQUARED => "Squared"
  | CUBED => "Cubed"
  | EXPONENTIAL => "Exponential"
  | S_CURVE => "S-Curve"
  | PIECEWISE => "Piecewise"
  | PLATEAU => "Plateau"
  end%string.

Definition all_curves : list CurveType :=
  [LINEAR; SQUARED; CUBED; EXPONENTIAL; S_CURVE; PIECEWISE; PLATEAU].

(** Lines 130-133.  [code] is [static_cast<int>] on the enumerators, fixed
    by the declaration of the enum in curves.h, which is not among the
    sources; [static_cast<CurveType>(next)] is the enumerator of that
    value, when there is one. *)
Definition nextCurve (code : CurveType -> Z) (current : CurveType)
    : option CurveType :=
  let next := Z.rem (code current + 1) 7 in
  find (fun c => (code c =? next)%Z) all_curves.

(** The numbering in which the enumerators come in the order of the
    switches of curves.cpp, as the comment of [nextCurve] has it ("wraps
    back to LINEAR after PLATEAU"). *)
Definition listed_code (c : CurveType) : Z :=
  match c with
  | LINEAR => 0
  | SQUARED => 1
  | CUBED => 2
  | EXPONENTIAL => 3
  | S_CURVE => 4
  | PIECEWISE => 5
  | PLATEAU => 6
  end%Z.

(** [nextCurve] applied [k] times. *)
Fixpoint nextCurve_iter (code : CurveType -> Z) (k : nat) (c : CurveType)
    : option CurveType :=
  match k with
  | O => Some c
  | S k' =>
      match nextCurve_iter code k' c with
      | Some c' => nextCurve code c'
      | None => None
      end
  end.

(** The curves whose shape depends on neither [<cmath>] nor [param]:
    [PIECEWISE] is one of them when [param > 0.01] is false and the
    breakpoint takes its default. *)
Definition fixed_shape (curve : CurveType) (param : float) : bool :=
  match curve with
  | LINEAR | SQUARED | CUBED | PLATEAU => true
  | PIECEWISE => negb (0.01 <? param)
  | EXPONENTIAL | S_CURVE => false
  end.

(** [applyCurve] on a curve of fixed shape. *)
Definition curve_output (curve : CurveType) (input : Z) : option Z :=
  applyCurve (fun d => d) (fun d => d) input curve 0.

(** The joystick range, from -127 to 127. *)
Definition stick_range : list Z :=
  map (fun n => (Z.of_nat n - 127)%Z) (seq 0 255).

End Curves.

(** ** Outtake control (src/src/subsystems/outtake.cpp) *)

Module Outtake.

(** The members of [OuttakeControl], as the constructor lists them. *)
Record OuttakeControl : Type := mkOuttake {
  comboMode : bool;
  L1_lastState : bool;
  midScoringMode : bool;
  X_lastState : bool;
  unjamStartTime : Z;
  isUnjamming : bool
}.

(** Lines 5-9. *)
Definition constructed : OuttakeControl :=
  mkOuttake false false false false 0 false.

(** The commands of [update] and [cancelCombo] to the motors, the piston
    and the intake controller. *)
Inductive Command : Type :=
| Intake_move_velocity (v : Z)
| Outtake_move_velocity (v : Z)
| MidScoring_set_value (b : bool)
| intake_cancelToggles.

(** What the reads of one call of [update] return: [millis k] is the result
    of the call of [pros::millis()] made after [k] earlier ones, [X] and
    [L1] those of [master.get_digital]. *)
Record Reads : Type := mkReads { millis : nat -> Z; X : bool; L1 : bool }.

(** Lines 24-84, from the state left by the unjam block after [k] calls of
    [pros::millis()]. *)
Definition after_unjam (r : Reads) (k : nat) (s : OuttakeControl)
    : OuttakeControl * list Command :=
  let X_current := X r in
  let toggled := X_current && negb (X_lastState s) in
  if toggled && midScoringMode s then
    (* leaving mid-scoring: lines 36-44 *)
    (mkOuttake false (L1_lastState s) false X_current (unjamStartTime s) false,
     [MidScoring_set_value false; Intake_move_velocity 0;
      Outtake_move_velocity 0])
  else
    let '(s, cmds) :=
      if toggled then
        (* entering mid-scoring: lines 30-34 *)
        (mkOuttake false (L1_lastState s) true (X_lastState s) (millis r k)
           true,
         [MidScoring_set_value true])
      else (s, []) in
    let s := mkOuttake (comboMode s) (L1_lastState s) (midScoringMode s)
               X_current (unjamStartTime s) (isUnjamming s) in
    if midScoringMode s && negb (isUnjamming s) then
      (* lines 51-56 *)
      (mkOuttake (comboMode s) (L1 r) (midScoringMode s) (X_lastState s)
         (unjamStartTime s) (isUnjamming s),
       cmds ++ [Intake_move_velocity (-600); Outtake_move_velocity (-600)])
    else if negb (midScoringMode s) then
      (* lines 57-82 *)
      let L1_current := L1 r in
      let '(combo, cmds1) :=
        if L1_current && negb (L1_lastState s) then
          if negb (comboMode s) then (true, [intake_cancelToggles])
          else (false, [Intake_move_velocity 0])
        else (comboMode s, []) in
      let s := mkOuttake combo L1_current (midScoringMode s) (X_lastState s)
                 (unjamStartTime s) (isUnjamming s) in
      if combo then
        (s, cmds ++ cmds1
            ++ [Intake_move_velocity 600; Outtake_move_velocity (-600)])
      else (s, cmds ++ cmds1 ++ [Outtake_move_velocity 0])
    else (s, cmds ++ [Outtake_move_velocity 0]).

(** Lines 11-85.  [unjam_over now start] is the test
    [pros::millis() - unjamStartTime >= 100], computed in the type that
    outtake.h, which is not among the sources, gives [unjamStartTime]. *)
Definition update (unjam_over : Z -> Z -> bool) (r : Reads)
    (s : OuttakeControl) : OuttakeControl * list Command :=
  if isUnjamming s then
    if unjam_over (millis r 0) (unjamStartTime s) then
      after_unjam r 1
        (mkOuttake (comboMode s) (L1_lastState s) (midScoringMode s)
           (X_lastState s) (unjamStartTime s) false)
    else (s, [Intake_move_velocity 600; Outtake_move_velocity (-600)])
  else after_unjam r 0 s.

(** Lines 87-91. *)
Definition getVelocity (s : OuttakeControl) : Z :=
  if midScoringMode s then -600 else if comboMode s then -600 else 0.

(** Lines 101-104. *)
Definition cancelCombo (s : OuttakeControl) : OuttakeControl * list Command :=
  (mkOuttake false (L1_lastState s) (midScoringMode s) (X_lastState s)
     (unjamStartTime s) (isUnjamming s),
   [Outtake_move_velocity 0]).

(** The test of line 14 when [unjamStartTime] is a [uint32_t], the type of
    [pros::millis()]: the difference is taken modulo 2^32. *)
Definition unjam_over_uint32 (now start : Z) : bool :=
  (100 <=? (now - start) mod 4294967296)%Z.

(** What is done to the controller from outside, one step at a time. *)
Inductive Step : Type :=
| do_update (r : Reads)
| do_cancelCombo.

Definition step (unjam_over : Z -> Z -> bool) (s : OuttakeControl)
    (e : Step) : OuttakeControl :=
  match e with
  | do_update r => fst (update unjam_over r s)
  | do_cancelCombo => fst (cancelCombo s)
  end.

(** The two modes exclude each other, and an unjam is part of mid-scoring. *)
Definition consistent (s : OuttakeControl) : Prop :=
  (midScoringMode s = true -> comboMode s = false) /\
  (isUnjamming s = true -> midScoringMode s = true).

(** The velocities sent to the outtake motor, in order. *)
Definition outtake_velocities (cmds : list Command) : list Z :=
  flat_map (fun c => match c with
                     | Outtake_move_velocity v => [v]
                     | _ => []
                     end) cmds.

End Outtake.

(** ** shakeBot (src/src/autonomous.cpp) *)

Module Shake.

(** The calls of [shakeBot] on the two motor groups and on the scheduler. *)
Inductive MotorCall : Type :=
| left_move (v : Z)
| right_move (v : Z)
| shake_delay (ms : Z)
| left_brake
| right_brake.

Definition SHAKE_POWER : Z := 60.
Definition SHAKE_INTERVAL : Z := 150.

(** The value of an integer as a [uint32_t]. *)
Definition uint32 (z : Z) : Z := z mod 4294967296.

(** Lines 21-29: one pass through the body of the loop. *)
Definition shake_cycle : list MotorCall :=
  [left_move (- SHAKE_POWER); right_move SHAKE_POWER;
   shake_delay SHAKE_INTERVAL;
   left_move SHAKE_POWER; right_move (- SHAKE_POWER);
   shake_delay SHAKE_INTERVAL].

(** Lines 20-30.  [millis k] is the result of the call of [pros::millis()]
    made after [k] earlier ones.  Whether the loop is left depends on the
    clock, so the passes are counted: [None] when [fuel] tests of the
    condition did not see it fail. *)
Fixpoint shake_loop (fuel : nat) (millis : nat -> Z) (k : nat)
    (startTime durationMs : Z) : option (list MotorCall) :=
  match fuel with
  | O => None
  | S fuel' =>
      if (uint32 (millis k - startTime) <? uint32 durationMs)%Z then
        match shake_loop fuel' millis (S k) startTime durationMs with
        | Some rest => Some (shake_cycle ++ rest)
        | None => None
        end
      else Some []
  end.

(** Lines 14-35. *)
Definition shakeBot (fuel : nat) (millis : nat -> Z) (durationMs : Z)
    : option (list MotorCall) :=
  let startTime := millis 0%nat in
  match shake_loop fuel millis 1 startTime durationMs with
  | Some calls => Some (calls ++ [left_brake; right_brake])
  | None => None
  end.

(** The time since the start that the [j]-th test of the loop condition
    (counted from 0) sees. *)
Definition shake_elapsed (millis : nat -> Z) (j : nat) : Z :=
  uint32 (millis (S j) - millis 0%nat).

End Shake.

(** * Properties *)

(** ** Arithmetic of the embedding *)

Lemma ltb_true_iff (a b : R) : (a <? b) = true <-> a < b.
Proof. unfold Double.ltb. destruct (Rlt_dec a b); split; (easy || lra). Qed.

Lemma ltb_false_iff (a b : R) : (a <? b) = false <-> b <= a.
Proof. unfold Double.ltb. destruct (Rlt_dec a b); split; (easy || lra). Qed.

Lemma leb_true_iff (a b : R) : (a <=? b) = true <-> a <= b.
Proof. unfold Double.leb. destruct (Rle_dec a b); split; (easy || lra). Qed.

Lemma leb_false_iff (a b : R) : (a <=? b) = false <-> b < a.
Proof. unfold Double.leb. destruct (Rle_dec a b); split; (easy || lra). Qed.

(** Decides the comparisons of the goal whose outcome [lra] can tell. *)
Ltac decide_cmp :=
  repeat match goal with
    | |- context [Double.ltb ?a ?b] =>
        first
          [ replace (Double.ltb a b) with true
              by (symmetry; apply ltb_true_iff; lra)
          | replace (Double.ltb a b) with false
              by (symmetry; apply ltb_false_iff; lra) ]
    | |- context [Double.leb ?a ?b] =>
        first
          [ replace (Double.leb a b) with true
              by (symmetry; apply leb_true_iff; lra)
          | replace (Double.leb a b) with false
              by (symmetry; apply leb_false_iff; lra) ]
    end.

Lemma trunc_nonneg (d : R) (z : Z) :
  0 <= d -> IZR z <= d < IZR z + 1 -> CInt.trunc d = z.
Proof.
  intros Hd Hz. unfold CInt.trunc.
  destruct (Rle_dec 0 d); [now apply Zfloor_eq | contradiction].
Qed.

Lemma trunc_neg (d : R) (z : Z) :
  d < 0 -> IZR z - 1 < d <= IZR z -> CInt.trunc d = z.
Proof.
  intros Hd Hz. unfold CInt.trunc.
  destruct (Rle_dec 0 d); [lra | now apply Zceil_eq].
Qed.

Lemma trunc_IZR (z : Z) : CInt.trunc (IZR z) = z.
Proof.
  unfold CInt.trunc. destruct (Rle_dec 0 (IZR z)).
  - apply ZfloorZ.
  - unfold Zceil. rewrite <- opp_IZR, ZfloorZ. lia.
Qed.

Lemma headingDeg_range (t : Z) :
  (0 <= Z.rem (Z.rem t 360 + 360) 360 < 360)%Z.
Proof.
  assert (H : (-360 < Z.rem t 360 < 360)%Z).
  { pose proof (Z.rem_bound_abs t 360). lia. }
  assert (H0 : (0 <= Z.rem t 360 + 360)%Z) by lia.
  pose proof (Z.rem_bound_pos (Z.rem t 360 + 360) 360 H0). lia.
Qed.

Lemma headingDeg_of_range (e : R) (n : Z) :
  headingDeg_of e = Some n -> (0 <= n < 360)%Z.
Proof.
  unfold headingDeg_of. destruct (CInt.of_double e); [|discriminate].
  intros [= <-]. apply headingDeg_range.
Qed.

(** On whole degrees the partition names exactly one wall. *)
Lemma in_partition_Z_total (n : Z) :
  (0 <= n < 360)%Z -> exists w, in_partition_Z n w.
Proof.
  intros Hn.
  destruct (Z_le_gt_dec n 45); [exists TOP; simpl; lia|].
  destruct (Z_le_gt_dec n 135); [exists RIGHT; simpl; lia|].
  destruct (Z_le_gt_dec n 225); [exists BOTTOM; simpl; lia|].
  destruct (Z_lt_ge_dec n 315); [exists LEFT; simpl; lia|].
  exists TOP; simpl; lia.
Qed.

Lemma in_partition_Z_unique (n : Z) (w w' : Wall) :
  in_partition_Z n w -> in_partition_Z n w' -> w = w'.
Proof. destruct w, w'; simpl; intros; (reflexivity || lia). Qed.

(** The three copies of the ladder agree with the partition on whole
    degrees. *)
Lemma left_wall_partition (n : Z) (w : Wall) :
  in_partition_Z n w -> left_wall n = wall_flags w.
Proof.
  unfold left_wall; destruct w; simpl; intros H;
    repeat match goal with
           | |- context [if ?b then _ else _] =>
               let E := fresh in destruct b eqn:E
           end; try reflexivity; lia.
Qed.

Lemma right_wall_left_wall (n : Z) : right_wall n = left_wall n.
Proof. reflexivity. Qed.

Lemma back_wall_left_wall (n : Z) : fst (back_wall n) = left_wall n.
Proof.
  unfold back_wall, left_wall.
  repeat match goal with
         | |- context [if ?b then _ else _] => destruct b
         end; reflexivity.
Qed.

Lemma of_double_nonneg (d : R) (z : Z) :
  0 <= d -> IZR z <= d < IZR z + 1 -> CInt.in_range z = true ->
  CInt.of_double d = Some z.
Proof.
  intros Hd Hz Hr. unfold CInt.of_double, CInt.checked.
  now rewrite (trunc_nonneg d z Hd Hz), Hr.
Qed.

Lemma of_double_headingDeg (e : R) (t : Z) :
  CInt.of_double e = Some t ->
  headingDeg_of e = Some (Z.rem (Z.rem t 360 + 360) 360).
Proof. unfold headingDeg_of. now intros ->. Qed.

Lemma headingDeg_of_inv (e : R) (n : Z) :
  headingDeg_of e = Some n ->
  exists t, CInt.of_double e = Some t /\ n = Z.rem (Z.rem t 360 + 360) 360.
Proof.
  unfold headingDeg_of. destruct (CInt.of_double e) as [t|]; [|discriminate].
  intros [= <-]. now exists t.
Qed.

Lemma headingDeg_of_nonneg (d : R) (t n : Z) :
  0 <= d -> IZR t <= d < IZR t + 1 -> CInt.in_range t = true ->
  Z.rem (Z.rem t 360 + 360) 360 = n ->
  headingDeg_of d = Some n.
Proof.
  intros Hd Ht Hr <-. apply of_double_headingDeg.
  now apply of_double_nonneg.
Qed.

(** Evaluates [headingDeg_of] at a heading that is not negative and whose
    truncation is [t]. *)
Ltac heading_cast t :=
  simpl; apply (headingDeg_of_nonneg _ t);
  [lra | lra | reflexivity | reflexivity].

(** Evaluation of the real functions at the points the examples need. *)
Lemma round_eq (a : R) (z : Z) :
  0 <= a -> IZR z <= a + / 2 < IZR z + 1 -> Double.round a = IZR z.
Proof.
  intros Ha Hz. unfold Double.round.
  destruct (Rle_dec 0 a); [|contradiction]. now rewrite (Zfloor_eq z).
Qed.

Lemma fmod_wrap (e : R) : 0 <= e < 360 -> Double.fmod (e + 360) 360 = e.
Proof.
  intros He. unfold Double.fmod.
  rewrite (trunc_nonneg _ 1); lra.
Qed.

Lemma atan2_zero (sp : R) : 0 < sp -> Double.atan2 0 sp = 0.
Proof.
  intros Hs. unfold Double.atan2.
  destruct (Rlt_dec 0 sp); [|contradiction].
  unfold Rdiv. rewrite Rmult_0_l. apply atan_0.
Qed.

(** ** What the locals are, once the cast is defined *)

Lemma back_locals_spec (dl dr sp lo ro fh : R) (p : Pose) (n : Z) :
  headingDeg_of (theta p + 180) = Some n ->
  exists l, back_locals dl dr sp lo ro fh p = Some l /\
    b_headingDeg l = n /\
    (b_resettingX l, b_wallSign l, b_expected_perpendicular_heading l)
      = back_wall n /\
    b_angle_to_wall_rad l = Double.atan2 (dr - dl) sp /\
    b_angle_to_wall_deg l = b_angle_to_wall_rad l * 180 / Double.M_PI /\
    b_corrected_distance l
      = (dl + dr) / 2 * cos (b_angle_to_wall_rad l) + (lo + ro) / 2 /\
    b_actualPos l = b_wallSign l * (fh - b_corrected_distance l) /\
    b_corrected_heading l
      = Double.fmod (b_expected_perpendicular_heading l
                     - b_angle_to_wall_deg l + 360) 360.
Proof.
  intros H. apply headingDeg_of_inv in H as (t & Ht & ->).
  unfold back_locals. rewrite Ht.
  destruct (back_wall _) as [[rx sg] ex].
  eexists. split; [reflexivity|]. simpl. repeat split; reflexivity.
Qed.

Lemma left_locals_spec (r o fh : R) (p : Pose) (n : Z) :
  headingDeg_of (theta p + 270) = Some n ->
  exists l, left_locals r o fh p = Some l /\
    s_sensor_heading_deg l = theta p + 270 /\
    s_headingDeg l = n /\
    (s_resettingX l, s_wallSign l) = left_wall n /\
    s_angle_off_deg l
      = s_sensor_heading_deg l
        - Double.round (s_sensor_heading_deg l / 90) * 90 /\
    s_corrected_distance l
      = r * cos (s_angle_off_deg l * Double.M_PI / 180) + o /\
    s_actualPos l = s_wallSign l * (fh - s_corrected_distance l).
Proof.
  intros H. apply headingDeg_of_inv in H as (t & Ht & ->).
  unfold left_locals. rewrite Ht.
  destruct (left_wall _) as [rx sg].
  eexists. split; [reflexivity|]. simpl. repeat split; reflexivity.
Qed.

Lemma right_locals_spec (r o fh : R) (p : Pose) (n : Z) :
  headingDeg_of (theta p + 90) = Some n ->
  exists l, right_locals r o fh p = Some l /\
    s_sensor_heading_deg l = theta p + 90 /\
    s_headingDeg l = n /\
    (s_resettingX l, s_wallSign l) = right_wall n /\
    s_angle_off_deg l
      = s_sensor_heading_deg l
        - Double.round (s_sensor_heading_deg l / 90) * 90 /\
    s_corrected_distance l
      = r * cos (s_angle_off_deg l * Double.M_PI / 180) + o /\
    s_actualPos l = s_wallSign l * (fh - s_corrected_distance l).
Proof.
  intros H. apply headingDeg_of_inv in H as (t & Ht & ->).
  unfold right_locals. rewrite Ht.
  destruct (right_wall _) as [rx sg].
  eexists. split; [reflexivity|]. simpl. repeat split; reflexivity.
Qed.

(** ** Wall classification *)

(** On a whole-degree effective heading, truncation changes nothing: the
    partition of section 4.1 on the normalized heading and the partition on
    [headingDeg] name the same wall. *)
Lemma whole_degree_partition (z n : Z) (w : Wall) :
  headingDeg_of (IZR z) = Some n ->
  (in_partition (normalize360 (IZR z)) w <-> in_partition_Z n w).
Proof.
  intros H. apply headingDeg_of_inv in H as (t & Ht & ->).
  unfold CInt.of_double, CInt.checked in Ht. rewrite trunc_IZR in Ht.
  destruct (CInt.in_range z); [|discriminate]. injection Ht as <-.
  assert (E : Z.rem (Z.rem z 360 + 360) 360 = (z mod 360)%Z).
  { pose proof (Z.rem_bound_abs z 360).
    rewrite Z.rem_mod_nonneg by lia.
    pose proof (Z.quot_rem' z 360) as Q.
    replace (Z.rem z 360 + 360)%Z with (z + (1 - Z.quot z 360) * 360)%Z by lia.
    apply Z.mod_add; lia. }
  rewrite E.
  assert (N : normalize360 (IZR z) = IZR (z mod 360)).
  { unfold normalize360.
    rewrite (Zfloor_eq (z / 360)).
    - rewrite Z.mod_eq by lia. rewrite minus_IZR, mult_IZR. lra.
    - pose proof (Z.mod_pos_bound z 360 ltac:(lia)) as Hm.
      rewrite Z.mod_eq in Hm by lia.
      assert (H1 : IZR (360 * (z / 360)) <= IZR z) by (apply IZR_le; lia).
      assert (H2 : IZR z < IZR (360 * (z / 360) + 360)) by (apply IZR_lt; lia).
      rewrite plus_IZR in H2. rewrite mult_IZR in H1, H2. lra. }
  rewrite N. set (m := (z mod 360)%Z).
  destruct w; simpl; split; intros Hw.
  all: repeat match goal with
         | h : _ \/ _ |- _ => destruct h
         | h : _ /\ _ |- _ => destruct h
         | h : (IZR _ <= IZR _)%R |- _ => apply le_IZR in h
         | h : (IZR _ < IZR _)%R |- _ => apply lt_IZR in h
         end.
  all: try lia.
  all: try (left; split; apply IZR_le || apply IZR_lt; lia).
  all: try (right; split; apply IZR_le || apply IZR_lt; lia).
  all: try (split; apply IZR_le || apply IZR_lt; lia).
Qed.

(** C1, as amended.  For every effective heading [e] (robot heading plus
    facing offset) whose truncation fits an [int], the three reset
    operations classify the whole-degree heading
    [n = ((int)e % 360 + 360) % 360]: [n] lies in [[0,360)], exactly one
    wall [w] contains [n] in the partition [[315,360) u [0,45]] TOP,
    [(45,135]] RIGHT, [(135,225]] BOTTOM, [(225,315)] LEFT, and each
    operation resets the axis and uses the sign of [w].  When [e] is a
    whole number of degrees, [w] is the wall of the normalized [e] in the
    partition of section 4.1. *)
Theorem wall_classification (e : R) (n : Z) :
  headingDeg_of e = Some n ->
  (0 <= n < 360)%Z /\
  exists w,
    in_partition_Z n w /\
    (forall w', in_partition_Z n w' -> w' = w) /\
    (forall z, e = IZR z -> in_partition (normalize360 e) w) /\
    (forall p dl dr sp lo ro fh, theta p + 180 = e ->
       exists l, back_locals dl dr sp lo ro fh p = Some l /\
                 (b_resettingX l, b_wallSign l) = wall_flags w) /\
    (forall p r o fh, theta p + 270 = e ->
       exists l, left_locals r o fh p = Some l /\
                 (s_resettingX l, s_wallSign l) = wall_flags w) /\
    (forall p r o fh, theta p + 90 = e ->
       exists l, right_locals r o fh p = Some l /\
                 (s_resettingX l, s_wallSign l) = wall_flags w).
Proof.
  intros H. pose proof (headingDeg_of_range e n H) as Hn.
  split; [exact Hn|].
  destruct (in_partition_Z_total n Hn) as [w Hw]. exists w.
  split; [exact Hw|]. split.
  { intros w' Hw'. now apply (in_partition_Z_unique n). }
  split.
  { intros z ->. now apply (whole_degree_partition z n). }
  pose proof (left_wall_partition n w Hw) as HL.
  repeat split.
  - intros p dl dr sp lo ro fh <-.
    destruct (back_locals_spec dl dr sp lo ro fh p n H)
      as (l & -> & _ & Hl & _).
    exists l. split; [reflexivity|].
    rewrite <- HL, <- back_wall_left_wall, <- Hl. reflexivity.
  - intros p r o fh <-.
    destruct (left_locals_spec r o fh p n H) as (l & -> & _ & _ & Hl & _).
    exists l. split; [reflexivity|]. now rewrite Hl.
  - intros p r o fh <-.
    destruct (right_locals_spec r o fh p n H) as (l & -> & _ & _ & Hl & _).
    exists l. split; [reflexivity|]. now rewrite Hl, right_wall_left_wall.
Qed.

Lemma wall_classification_witness :
  headingDeg_of 45 = Some 45%Z /\
  exists w, in_partition_Z 45 w /\
    (forall p r o fh, theta p + 270 = 45 ->
       exists l, left_locals r o fh p = Some l /\
                 (s_resettingX l, s_wallSign l) = wall_flags w).
Proof.
  assert (H : headingDeg_of 45 = Some 45%Z).
  { heading_cast 45%Z. }
  split; [exact H|].
  destruct (wall_classification 45 45 H) as (_ & w & Hw & _ & _ & _ & HL & _).
  exists w. split; [exact Hw | exact HL].
Defined.

(** C1, as stated, fails on a fractional heading.  With the robot at
    135.5 degrees the left sensor's effective heading is 405.5, which
    normalizes to 45.5 and lies in [(45,135]], the range of RIGHT; the code
    truncates it to 405, gets [headingDeg = 45] and takes the branch of
    TOP. *)
Lemma fractional_heading_counterexample :
  let p := mkPose 0 0 (271 / 2) in
  normalize360 (theta p + 270) = 91 / 2 /\
  in_partition (normalize360 (theta p + 270)) RIGHT /\
  exists l, left_locals 10 0 72 p = Some l /\
            s_headingDeg l = 45%Z /\
            (s_resettingX l, s_wallSign l) = wall_flags TOP /\
            (s_resettingX l, s_wallSign l) <> wall_flags RIGHT.
Proof.
  simpl.
  assert (N : normalize360 (271 / 2 + 270) = 91 / 2).
  { unfold normalize360. rewrite (Zfloor_eq 1); lra. }
  split; [exact N|]. split; [rewrite N; simpl; lra|].
  assert (H : headingDeg_of (theta (mkPose 0 0 (271 / 2)) + 270) = Some 45%Z).
  { heading_cast 405%Z. }
  destruct (left_locals_spec 10 0 72 _ 45 H) as (l & Hl & _ & Hn & Hf & _).
  simpl in Hl. exists l. split; [exact Hl|]. split; [exact Hn|].
  rewrite Hf. split; [reflexivity|].
  unfold left_wall, wall_flags; simpl. intros [= E].
Qed.

(** Truncation is toward zero: the effective heading -45.5 normalizes to
    314.5, in the range of LEFT, and is classified as 315, TOP. *)
Example negative_fractional_heading :
  normalize360 (- (91 / 2)) = 629 / 2 /\
  in_partition (normalize360 (- (91 / 2))) LEFT /\
  headingDeg_of (- (91 / 2)) = Some 315%Z /\
  in_partition_Z 315 TOP.
Proof.
  assert (N : normalize360 (- (91 / 2)) = 629 / 2).
  { unfold normalize360. rewrite (Zfloor_eq (-1)); lra. }
  split; [exact N|]. split; [rewrite N; simpl; lra|]. split.
  - apply (of_double_headingDeg _ (-45)).
    unfold CInt.of_double. rewrite (trunc_neg _ (-45)); [reflexivity|lra|lra].
  - simpl. lia.
Qed.

(** ** The operations on accepted and on rejected readings *)

Lemma resetBack_accepted (bl br : Z) (sp lo ro fh : R) (st : Robot)
    (l : BackLocals) :
  0 <= IZR bl / 25.4 <= 200 -> 0 <= IZR br / 25.4 <= 200 ->
  back_locals (IZR bl / 25.4) (IZR br / 25.4) sp lo ro fh (pose st) = Some l ->
  resetPositionAndHeadingBack bl br sp lo ro fh st
  = Some (call (printf (ResetReport (b_actualPos l) (b_corrected_heading l)
                          (b_angle_to_wall_deg l)))
            (chassis_setPose
               (if b_resettingX l then b_actualPos l else x (pose st))
               (if b_resettingX l then y (pose st) else b_actualPos l)
               (b_corrected_heading l) (call getPose st))).
Proof.
  intros Hl Hr Hloc. unfold resetPositionAndHeadingBack.
  decide_cmp.
  simpl. rewrite Hloc. reflexivity.
Qed.

Lemma resetLeft_accepted (mm : Z) (o fh : R) (st : Robot) (l : SideLocals) :
  0 <= IZR mm / 25.4 <= 200 ->
  left_locals (IZR mm / 25.4) o fh (pose st) = Some l ->
  resetPositionLeft mm o fh st
  = Some (chassis_setPose
            (if s_resettingX l then s_actualPos l else x (pose st))
            (if s_resettingX l then y (pose st) else s_actualPos l)
            (theta (pose st)) (call getPose st)).
Proof.
  intros Hd Hloc. unfold resetPositionLeft.
  decide_cmp.
  simpl. rewrite Hloc. reflexivity.
Qed.

Lemma resetRight_accepted (mm : Z) (o fh : R) (st : Robot) (l : SideLocals) :
  0 <= IZR mm / 25.4 <= 200 ->
  right_locals (IZR mm / 25.4) o fh (pose st) = Some l ->
  resetPositionRight mm o fh st
  = Some (chassis_setPose
            (if s_resettingX l then s_actualPos l else x (pose st))
            (if s_resettingX l then y (pose st) else s_actualPos l)
            (theta (pose st)) (call getPose st)).
Proof.
  intros Hd Hloc. unfold resetPositionRight.
  decide_cmp.
  simpl. rewrite Hloc. reflexivity.
Qed.

Lemma rejected_guard (d : R) :
  rejected d -> (d <? 0) || (200 <? d) = true.
Proof.
  intros [H|H].
  - apply orb_true_iff; left. now apply ltb_true_iff.
  - apply orb_true_iff; right. now apply ltb_true_iff.
Qed.

Lemma resetBack_rejected (bl br : Z) (sp lo ro fh : R) (st : Robot) :
  rejected (IZR bl / 25.4) \/ rejected (IZR br / 25.4) ->
  resetPositionAndHeadingBack bl br sp lo ro fh st
  = Some (call (printf (InvalidBack (IZR bl / 25.4) (IZR br / 25.4))) st).
Proof.
  intros H. unfold resetPositionAndHeadingBack.
  assert (G : (IZR bl / 25.4 <? 0) || (200 <? IZR bl / 25.4)
              || (IZR br / 25.4 <? 0) || (200 <? IZR br / 25.4) = true).
  { destruct H as [H|H]; apply rejected_guard in H.
    - rewrite H. reflexivity.
    - rewrite <- !orb_assoc. rewrite H. now rewrite !orb_true_r. }
  now rewrite G.
Qed.

Lemma resetLeft_rejected (mm : Z) (o fh : R) (st : Robot) :
  rejected (IZR mm / 25.4) ->
  resetPositionLeft mm o fh st
  = Some (call (printf (InvalidLeft (IZR mm / 25.4))) st).
Proof.
  intros H. unfold resetPositionLeft. now rewrite (rejected_guard _ H).
Qed.

Lemma resetRight_rejected (mm : Z) (o fh : R) (st : Robot) :
  rejected (IZR mm / 25.4) ->
  resetPositionRight mm o fh st
  = Some (call (printf (InvalidRight (IZR mm / 25.4))) st).
Proof.
  intros H. unfold resetPositionRight. now rewrite (rejected_guard _ H).
Qed.

(** The sentinel [PROS_ERR] converts to a reading above 200. *)
Lemma sentinel_rejected : rejected (IZR PROS_ERR / 25.4).
Proof. right. unfold PROS_ERR. lra. Qed.

(** ** Rejected readings *)

(** C2, as amended.  Each reset operation whose converted reading (for the
    back pair: either reading) is negative or above 200 returns without
    touching the pose: the only call it makes is the [printf] of the
    diagnostic, which carries the converted reading(s).  A reading of
    exactly 0 is not rejected. *)
Theorem rejected_reading_is_noop (bl br mm : Z) (sp lo ro o fh : R)
    (st : Robot) :
  (rejected (IZR bl / 25.4) \/ rejected (IZR br / 25.4) ->
   exists st', resetPositionAndHeadingBack bl br sp lo ro fh st = Some st' /\
     pose st' = pose st /\
     calls st' = calls st
                 ++ [printf (InvalidBack (IZR bl / 25.4) (IZR br / 25.4))]) /\
  (rejected (IZR mm / 25.4) ->
   (exists st', resetPositionLeft mm o fh st = Some st' /\
      pose st' = pose st /\
      calls st' = calls st ++ [printf (InvalidLeft (IZR mm / 25.4))]) /\
   (exists st', resetPositionRight mm o fh st = Some st' /\
      pose st' = pose st /\
      calls st' = calls st ++ [printf (InvalidRight (IZR mm / 25.4))])).
Proof.
  split; [intros H | intros H; split].
  - rewrite (resetBack_rejected _ _ _ _ _ _ _ H). eexists; repeat split.
  - rewrite (resetLeft_rejected _ _ _ _ H). eexists; repeat split.
  - rewrite (resetRight_rejected _ _ _ _ H). eexists; repeat split.
Qed.

Lemma rejected_reading_is_noop_witness :
  let st := mkRobot (mkPose 1 2 3) [] in
  rejected (IZR (-1) / 25.4) /\ rejected (IZR 5106 / 25.4) /\
  (exists st', resetPositionAndHeadingBack (-1) 254 6 2 2 72 st = Some st' /\
     pose st' = pose st /\
     calls st' = calls st
                 ++ [printf (InvalidBack (IZR (-1) / 25.4) (IZR 254 / 25.4))]) /\
  (exists st', resetPositionLeft 5106 2 72 st = Some st' /\
     pose st' = pose st /\
     calls st' = calls st ++ [printf (InvalidLeft (IZR 5106 / 25.4))]).
Proof.
  intros st.
  assert (H1 : rejected (IZR (-1) / 25.4)) by (left; lra).
  assert (H2 : rejected (IZR 5106 / 25.4)) by (right; lra).
  split; [exact H1|]. split; [exact H2|]. split.
  - apply (proj1 (rejected_reading_is_noop (-1) 254 5106 6 2 2 2 72 st)).
    left; exact H1.
  - apply (proj2 (rejected_reading_is_noop (-1) 254 5106 6 2 2 2 72 st)).
    exact H2.
Defined.

(** C2, as stated, fails on the reading 0.  It lies outside the window
    [(0, 200]], yet [resetPositionLeft] accepts it: with the robot at the
    origin heading 0 it reads the pose and overwrites [x] with
    [-(72 - 2) = -70]. *)
Lemma zero_reading_counterexample :
  let st := mkRobot (mkPose 0 0 0) [] in
  ~ plausible (IZR 0 / 25.4) /\
  resetPositionLeft 0 2 72 st
  = Some (mkRobot (mkPose (-70) 0 0) [getPose; setPose (-70) 0 0]) /\
  mkPose (-70) 0 0 <> pose st.
Proof.
  intros st. split; [unfold plausible; lra|]. split.
  - assert (H : headingDeg_of (theta (pose st) + 270) = Some 270%Z).
    { heading_cast 270%Z. }
    destruct (left_locals_spec (IZR 0 / 25.4) 2 72 (pose st) 270 H)
      as (l & Hl & Hh & _ & Hf & Ha & Hc & Hp).
    rewrite (resetLeft_accepted 0 2 72 st l); [|lra|exact Hl].
    unfold left_wall in Hf; simpl in Hf. injection Hf as Hx Hs.
    rewrite Hh in Ha. simpl in Ha.
    rewrite (round_eq _ 3) in Ha by lra.
    assert (Hc' : s_corrected_distance l = 2).
    { rewrite Hc, Ha.
      replace ((0 + 270 - 3 * 90) * Double.M_PI / 180) with 0 by lra.
      rewrite cos_0. lra. }
    assert (Hp' : s_actualPos l = -70) by (rewrite Hp, Hs, Hc'; lra).
    rewrite Hx, Hp'. reflexivity.
  - simpl. intros [= E]. lra.
Qed.

(** ** Heading correction of the back pair *)

Lemma expected_heading_opposite (w : Wall) :
  expected_heading w = IZR ((wall_direction w + 180) mod 360).
Proof. destruct w; reflexivity. Qed.

Lemma expected_heading_range (w : Wall) : 0 <= expected_heading w < 360.
Proof. destruct w; simpl; lra. Qed.

Lemma back_wall_partition (n : Z) (w : Wall) :
  in_partition_Z n w -> back_wall n = (wall_flags w, expected_heading w).
Proof.
  unfold back_wall; destruct w; simpl; intros H;
    repeat match goal with
           | |- context [if ?b then _ else _] =>
               let E := fresh in destruct b eqn:E
           end; try reflexivity; lia.
Qed.

Lemma back_locals_inv (dl dr sp lo ro fh : R) (p : Pose) (l : BackLocals) :
  back_locals dl dr sp lo ro fh p = Some l ->
  headingDeg_of (theta p + 180) = Some (b_headingDeg l).
Proof.
  intros H. unfold back_locals in H. unfold headingDeg_of.
  destruct (CInt.of_double (theta p + 180)) as [t|]; [|discriminate].
  destruct (back_wall _) as [[rx sg] ex]. now injection H as <-.
Qed.

(** C9.  In every run of [resetPositionAndHeadingBack] on accepted readings
    the back faces the wall [w] whose sector holds [headingDeg], the whole
    degrees of the robot heading plus 180.  The expected perpendicular
    heading the ladder gives is 180 for TOP, 270 for RIGHT, 0 for BOTTOM and
    90 for LEFT, that is the direction of [w] plus 180 modulo 360, and it is
    the value fed into the heading correction: the heading that [setPose]
    writes is that value minus the angle measured by the two sensors,
    brought into [[0, 360)] by [fmod]. *)
Theorem back_expected_heading (bl br : Z) (sp lo ro fh : R) (st : Robot)
    (n : Z) :
  0 <= IZR bl / 25.4 <= 200 -> 0 <= IZR br / 25.4 <= 200 ->
  headingDeg_of (theta (pose st) + 180) = Some n ->
  exists w l st' nx ny,
    in_partition_Z n w /\
    back_locals (IZR bl / 25.4) (IZR br / 25.4) sp lo ro fh (pose st) = Some l /\
    b_headingDeg l = n /\
    (b_resettingX l, b_wallSign l) = wall_flags w /\
    b_expected_perpendicular_heading l = expected_heading w /\
    expected_heading w
    = match w with TOP => 180 | RIGHT => 270 | BOTTOM => 0 | LEFT => 90 end /\
    expected_heading w = IZR ((wall_direction w + 180) mod 360) /\
    b_angle_to_wall_deg l
    = Double.atan2 (IZR br / 25.4 - IZR bl / 25.4) sp * 180 / Double.M_PI /\
    resetPositionAndHeadingBack bl br sp lo ro fh st = Some st' /\
    pose st'
    = mkPose nx ny
        (Double.fmod (expected_heading w - b_angle_to_wall_deg l + 360) 360) /\
    In (setPose nx ny
          (Double.fmod (expected_heading w - b_angle_to_wall_deg l + 360) 360))
       (calls st').
Proof.
  intros Hl Hr Hn.
  destruct (back_locals_spec (IZR bl / 25.4) (IZR br / 25.4) sp lo ro fh
              (pose st) n Hn)
    as (l & Hloc & Hh & Hw & Hrad & Hdeg & _ & _ & Hc).
  destruct (in_partition_Z_total n (headingDeg_of_range _ _ Hn)) as [w Hp].
  rewrite (back_wall_partition n w Hp) in Hw.
  unfold wall_flags in Hw. injection Hw as Hx Hs He.
  rewrite He in Hc.
  exists w, l. eexists. eexists. eexists.
  split; [exact Hp|]. split; [exact Hloc|]. split; [exact Hh|].
  split; [unfold wall_flags; now rewrite Hx, Hs|].
  split; [exact He|].
  split; [now destruct w|].
  split; [apply expected_heading_opposite|].
  split; [now rewrite Hdeg, Hrad|].
  split; [exact (resetBack_accepted bl br sp lo ro fh st l Hl Hr Hloc)|].
  unfold call, chassis_setPose; cbn [pose calls]. rewrite Hc. split.
  - reflexivity.
  - rewrite !in_app_iff. left; right. left. reflexivity.
Qed.

Lemma back_expected_heading_witness :
  let st := mkRobot (mkPose 0 0 90) [] in
  exists w l st' nx ny,
    in_partition_Z 270 w /\
    back_locals (IZR 254 / 25.4) (IZR 381 / 25.4) 6 2 2 72 (pose st) = Some l /\
    b_headingDeg l = 270%Z /\
    (b_resettingX l, b_wallSign l) = wall_flags w /\
    b_expected_perpendicular_heading l = expected_heading w /\
    expected_heading w
    = match w with TOP => 180 | RIGHT => 270 | BOTTOM => 0 | LEFT => 90 end /\
    expected_heading w = IZR ((wall_direction w + 180) mod 360) /\
    b_angle_to_wall_deg l
    = Double.atan2 (IZR 381 / 25.4 - IZR 254 / 25.4) 6 * 180 / Double.M_PI /\
    resetPositionAndHeadingBack 254 381 6 2 2 72 st = Some st' /\
    pose st'
    = mkPose nx ny
        (Double.fmod (expected_heading w - b_angle_to_wall_deg l + 360) 360) /\
    In (setPose nx ny
          (Double.fmod (expected_heading w - b_angle_to_wall_deg l + 360) 360))
       (calls st').
Proof.
  intros st.
  apply (back_expected_heading 254 381 6 2 2 72 st 270); [lra | lra |].
  heading_cast 270%Z.
Defined.

(** C5.  When the two readings of the back pair are equal and accepted and
    the spacing is positive, [angle_to_wall] is exactly 0 (in radians and
    in degrees) and the heading written by [setPose] is exactly the
    expected perpendicular heading of the classified wall. *)
Theorem equal_readings_heading (bl br : Z) (sp lo ro fh : R) (st : Robot)
    (n : Z) :
  IZR bl / 25.4 = IZR br / 25.4 ->
  plausible (IZR bl / 25.4) ->
  0 < sp ->
  headingDeg_of (theta (pose st) + 180) = Some n ->
  exists l w st' nx ny,
    back_locals (IZR bl / 25.4) (IZR br / 25.4) sp lo ro fh (pose st) = Some l /\
    b_angle_to_wall_rad l = 0 /\
    b_angle_to_wall_deg l = 0 /\
    in_partition_Z n w /\
    b_expected_perpendicular_heading l = expected_heading w /\
    b_corrected_heading l = expected_heading w /\
    resetPositionAndHeadingBack bl br sp lo ro fh st = Some st' /\
    pose st' = mkPose nx ny (expected_heading w) /\
    In (setPose nx ny (expected_heading w)) (calls st').
Proof.
  intros Heq Hv Hsp Hn. unfold plausible in Hv.
  destruct (back_locals_spec (IZR bl / 25.4) (IZR br / 25.4) sp lo ro fh
              (pose st) n Hn)
    as (l & Hl & Hh & Hw & Hrad & Hdeg & _ & _ & Hc).
  destruct (in_partition_Z_total n (headingDeg_of_range _ _ Hn)) as [w Hp].
  rewrite (back_wall_partition n w Hp) in Hw. injection Hw as _ _ He.
  assert (Hrad0 : b_angle_to_wall_rad l = 0).
  { rewrite Hrad, <- Heq.
    replace (IZR bl / 25.4 - IZR bl / 25.4) with 0 by lra.
    now apply atan2_zero. }
  assert (Hdeg0 : b_angle_to_wall_deg l = 0).
  { rewrite Hdeg, Hrad0. unfold Rdiv. now rewrite !Rmult_0_l. }
  assert (Hc0 : b_corrected_heading l = expected_heading w).
  { rewrite Hc, Hdeg0, He, Rminus_0_r.
    apply fmod_wrap, expected_heading_range. }
  eexists l, w, _, _, _.
  repeat split; try eassumption.
  - apply resetBack_accepted; [lra | lra | exact Hl].
  - simpl. rewrite Hc0. reflexivity.
  - simpl. rewrite Hc0. rewrite !in_app_iff. left; right. left. reflexivity.
Qed.

Lemma equal_readings_heading_witness :
  let st := mkRobot (mkPose 0 0 0) [] in
  IZR 254 / 25.4 = IZR 254 / 25.4 /\
  plausible (IZR 254 / 25.4) /\
  0 < 6 /\
  headingDeg_of (theta (pose st) + 180) = Some 180%Z /\
  exists l w st' nx ny,
    back_locals (IZR 254 / 25.4) (IZR 254 / 25.4) 6 2 2 72 (pose st) = Some l /\
    b_angle_to_wall_rad l = 0 /\
    b_angle_to_wall_deg l = 0 /\
    in_partition_Z 180 w /\
    b_expected_perpendicular_heading l = expected_heading w /\
    b_corrected_heading l = expected_heading w /\
    resetPositionAndHeadingBack 254 254 6 2 2 72 st = Some st' /\
    pose st' = mkPose nx ny (expected_heading w) /\
    In (setPose nx ny (expected_heading w)) (calls st').
Proof.
  intros st.
  assert (H1 : plausible (IZR 254 / 25.4)) by (unfold plausible; lra).
  assert (H2 : 0 < 6) by lra.
  assert (H3 : headingDeg_of (theta (pose st) + 180) = Some 180%Z).
  { heading_cast 180%Z. }
  split; [reflexivity|]. split; [exact H1|]. split; [exact H2|].
  split; [exact H3|].
  exact (equal_readings_heading 254 254 6 2 2 72 st 180 eq_refl H1 H2 H3).
Defined.

(** ** Scenario A of section 8 *)

(** The locals of scenario A: heading 0, both sensors at 254 mm (10 in),
    spacing 6, offsets 2, half field 72.  The back of the robot looks at
    180 degrees, the bottom wall. *)
Lemma scenario_A_locals (x0 y0 : R) :
  exists l,
    back_locals (IZR 254 / 25.4) (IZR 254 / 25.4) 6 2 2 72 (mkPose x0 y0 0)
    = Some l /\
    b_headingDeg l = 180%Z /\
    b_resettingX l = false /\
    b_wallSign l = -1 /\
    b_angle_to_wall_deg l = 0 /\
    b_corrected_distance l = 12 /\
    b_actualPos l = -60 /\
    b_corrected_heading l = 0.
Proof.
  assert (H : headingDeg_of (theta (mkPose x0 y0 0) + 180) = Some 180%Z).
  { heading_cast 180%Z. }
  destruct (back_locals_spec (IZR 254 / 25.4) (IZR 254 / 25.4) 6 2 2 72
              _ _ H)
    as (l & Hl & Hh & Hw & Hrad & Hdeg & Hcd & Hp & Hc).
  exists l. unfold back_wall in Hw; simpl in Hw. injection Hw as Hx Hs He.
  assert (Hrad0 : b_angle_to_wall_rad l = 0).
  { rewrite Hrad. replace (IZR 254 / 25.4 - IZR 254 / 25.4) with 0 by lra.
    apply atan2_zero; lra. }
  assert (Hdeg0 : b_angle_to_wall_deg l = 0).
  { rewrite Hdeg, Hrad0. unfold Rdiv. now rewrite !Rmult_0_l. }
  assert (Hcd' : b_corrected_distance l = 12).
  { rewrite Hcd, Hrad0, cos_0. lra. }
  repeat split; try assumption.
  - rewrite Hp, Hs, Hcd'. lra.
  - rewrite Hc, He, Hdeg0, Rminus_0_r.
    apply (fmod_wrap 0). lra.
Qed.

(** C3, as amended.  In scenario A [resetPositionAndHeadingBack] keeps X,
    writes Y = -(72 - 12) = -60 and heading 0: with the robot heading 0
    its back faces the bottom wall. *)
Theorem scenario_A (x0 y0 : R) (log : list Call) :
  resetPositionAndHeadingBack 254 254 6 2 2 72 (mkRobot (mkPose x0 y0 0) log)
  = Some (mkRobot (mkPose x0 (-60) 0)
            (log ++ [getPose; setPose x0 (-60) 0;
                     printf (ResetReport (-60) 0 0)])).
Proof.
  destruct (scenario_A_locals x0 y0)
    as (l & Hl & _ & Hx & _ & Hdeg & _ & Hp & Hc).
  rewrite (resetBack_accepted _ _ _ _ _ _ _ l); [|lra|lra|exact Hl].
  rewrite Hx, Hp, Hc, Hdeg. unfold call, chassis_setPose; simpl.
  now rewrite <- !app_assoc.
Qed.

(** C3, as stated, fails: from the pose (0, 0, 0) the pose written in
    scenario A has Y = -60 and heading 0, not Y = 60 and heading 180. *)
Lemma scenario_A_counterexample :
  exists st',
    resetPositionAndHeadingBack 254 254 6 2 2 72 (mkRobot (mkPose 0 0 0) [])
    = Some st' /\
    y (pose st') = -60 /\ theta (pose st') = 0 /\
    y (pose st') <> 60 /\ theta (pose st') <> 180.
Proof.
  destruct (scenario_A_locals 0 0) as (l & Hl & _ & Hx & _ & _ & _ & Hp & Hc).
  eexists. split.
  - apply (resetBack_accepted _ _ _ _ _ _ _ l); [lra|lra|exact Hl].
  - simpl. rewrite Hx, Hp, Hc. repeat split; lra.
Qed.

(** With the robot heading 180 instead, the back faces the top wall and the
    same readings give Y = 60 and heading 180. *)
Lemma scenario_A_heading_180 (x0 y0 : R) (log : list Call) :
  resetPositionAndHeadingBack 254 254 6 2 2 72
    (mkRobot (mkPose x0 y0 180) log)
  = Some (mkRobot (mkPose x0 60 180)
            (log ++ [getPose; setPose x0 60 180;
                     printf (ResetReport 60 180 0)])).
Proof.
  assert (H : headingDeg_of (theta (mkPose x0 y0 180) + 180) = Some 0%Z).
  { heading_cast 360%Z. }
  destruct (back_locals_spec (IZR 254 / 25.4) (IZR 254 / 25.4) 6 2 2 72
              _ _ H)
    as (l & Hl & Hh & Hw & Hrad & Hdeg & Hcd & Hp & Hc).
  unfold back_wall in Hw; simpl in Hw. injection Hw as Hx Hs He.
  assert (Hrad0 : b_angle_to_wall_rad l = 0).
  { rewrite Hrad. replace (IZR 254 / 25.4 - IZR 254 / 25.4) with 0 by lra.
    apply atan2_zero; lra. }
  assert (Hdeg0 : b_angle_to_wall_deg l = 0).
  { rewrite Hdeg, Hrad0. unfold Rdiv. now rewrite !Rmult_0_l. }
  assert (Hp' : b_actualPos l = 60).
  { rewrite Hp, Hs, Hcd, Hrad0, cos_0. lra. }
  assert (Hc' : b_corrected_heading l = 180).
  { rewrite Hc, He, Hdeg0, Rminus_0_r. apply fmod_wrap. lra. }
  rewrite (resetBack_accepted _ _ _ _ _ _ _ l); [|lra|lra|exact Hl].
  rewrite Hx, Hp', Hc', Hdeg0. unfold call, chassis_setPose; simpl.
  now rewrite <- !app_assoc.
Qed.

(** ** The single-sensor operations *)

(** C4.  On a reading inside the window, [resetPositionLeft] and
    [resetPositionRight] read the pose once and write it once; the pose
    written keeps the heading read, and keeps the coordinate of the axis
    orthogonal to the one of the classified wall. *)
Theorem side_reset_frame (mm : Z) (o fh : R) (st : Robot) :
  plausible (IZR mm / 25.4) ->
  (forall n, headingDeg_of (theta (pose st) + 270) = Some n ->
     exists w nx ny,
       in_partition_Z n w /\
       resetPositionLeft mm o fh st
       = Some (mkRobot (mkPose nx ny (theta (pose st)))
                 (calls st ++ [getPose; setPose nx ny (theta (pose st))])) /\
       match wall_axis w with
       | AxisX => ny = y (pose st)
       | AxisY => nx = x (pose st)
       end) /\
  (forall n, headingDeg_of (theta (pose st) + 90) = Some n ->
     exists w nx ny,
       in_partition_Z n w /\
       resetPositionRight mm o fh st
       = Some (mkRobot (mkPose nx ny (theta (pose st)))
                 (calls st ++ [getPose; setPose nx ny (theta (pose st))])) /\
       match wall_axis w with
       | AxisX => ny = y (pose st)
       | AxisY => nx = x (pose st)
       end).
Proof.
  intros Hv. unfold plausible in Hv. split; intros n Hn.
  - destruct (left_locals_spec (IZR mm / 25.4) o fh (pose st) n Hn)
      as (l & Hl & _ & _ & Hf & _).
    destruct (in_partition_Z_total n (headingDeg_of_range _ _ Hn)) as [w Hw].
    rewrite (left_wall_partition n w Hw) in Hf.
    unfold wall_flags in Hf. injection Hf as Hx _.
    exists w. eexists. eexists. split; [exact Hw|]. split.
    + rewrite (resetLeft_accepted mm o fh st l); [|lra|exact Hl].
      unfold chassis_setPose, call; simpl. rewrite <- app_assoc. reflexivity.
    + rewrite Hx. destruct (wall_axis w); reflexivity.
  - destruct (right_locals_spec (IZR mm / 25.4) o fh (pose st) n Hn)
      as (l & Hl & _ & _ & Hf & _).
    destruct (in_partition_Z_total n (headingDeg_of_range _ _ Hn)) as [w Hw].
    rewrite right_wall_left_wall, (left_wall_partition n w Hw) in Hf.
    unfold wall_flags in Hf. injection Hf as Hx _.
    exists w. eexists. eexists. split; [exact Hw|]. split.
    + rewrite (resetRight_accepted mm o fh st l); [|lra|exact Hl].
      unfold chassis_setPose, call; simpl. rewrite <- app_assoc. reflexivity.
    + rewrite Hx. destruct (wall_axis w); reflexivity.
Qed.

Lemma side_reset_frame_witness :
  let st := mkRobot (mkPose 7 8 90) [] in
  plausible (IZR 127 / 25.4) /\
  headingDeg_of (theta (pose st) + 90) = Some 180%Z /\
  exists w nx ny,
    in_partition_Z 180 w /\
    resetPositionRight 127 1 72 st
    = Some (mkRobot (mkPose nx ny 90) [getPose; setPose nx ny 90]) /\
    match wall_axis w with AxisX => ny = 8 | AxisY => nx = 7 end.
Proof.
  intros st.
  assert (H1 : plausible (IZR 127 / 25.4)) by (unfold plausible; lra).
  assert (H2 : headingDeg_of (theta (pose st) + 90) = Some 180%Z).
  { heading_cast 180%Z. }
  split; [exact H1|]. split; [exact H2|].
  exact (proj2 (side_reset_frame 127 1 72 st H1) 180%Z H2).
Defined.

(** C8.  [resetPositionLeft] at heading [h] and [resetPositionRight] at
    heading [h + 180] compute the same locals: the same effective heading
    and [headingDeg], hence the same wall, axis and sign, the same
    corrected distance and the same corrected coordinate; both are
    undefined together.  On every reading the two runs leave the same X
    and Y in the pose. *)
Theorem left_right_half_turn (mm : Z) (r o fh x0 y0 h : R)
    (log : list Call) :
  left_locals r o fh (mkPose x0 y0 h)
  = right_locals r o fh (mkPose x0 y0 (h + 180)) /\
  option_map (fun st => (x (pose st), y (pose st)))
    (resetPositionLeft mm o fh (mkRobot (mkPose x0 y0 h) log))
  = option_map (fun st => (x (pose st), y (pose st)))
      (resetPositionRight mm o fh (mkRobot (mkPose x0 y0 (h + 180)) log)).
Proof.
  assert (E : forall d, left_locals d o fh (mkPose x0 y0 h)
                        = right_locals d o fh (mkPose x0 y0 (h + 180))).
  { intros d. unfold left_locals, right_locals; simpl.
    replace (h + 180 + 90) with (h + 270) by lra. reflexivity. }
  split; [apply E|].
  unfold resetPositionLeft, resetPositionRight.
  destruct ((IZR mm / 25.4 <? 0) || (200 <? IZR mm / 25.4)); [reflexivity|].
  unfold chassis_getPose; simpl. rewrite E.
  destruct (right_locals (IZR mm / 25.4) o fh _) as [l|]; reflexivity.
Qed.

(** Scenario B of section 8: heading 90, right sensor at 127 mm (5 in),
    offset 1, half field 72.  The sensor looks at 180 degrees, the bottom
    wall, and Y becomes -(72 - 6) = -66. *)
Example scenario_B (x0 y0 : R) (log : list Call) :
  resetPositionRight 127 1 72 (mkRobot (mkPose x0 y0 90) log)
  = Some (mkRobot (mkPose x0 (-66) 90)
            (log ++ [getPose; setPose x0 (-66) 90])).
Proof.
  assert (H : headingDeg_of (theta (mkPose x0 y0 90) + 90) = Some 180%Z).
  { heading_cast 180%Z. }
  destruct (right_locals_spec (IZR 127 / 25.4) 1 72 _ _ H)
    as (l & Hl & Hh & _ & Hf & Ha & Hc & Hp).
  rewrite (resetRight_accepted 127 1 72 _ l); [|lra|exact Hl].
  unfold right_wall in Hf; simpl in Hf. injection Hf as Hx Hs.
  rewrite Hh in Ha. simpl in Ha. rewrite (round_eq _ 2) in Ha by lra.
  assert (Hp' : s_actualPos l = -66).
  { rewrite Hp, Hs, Hc, Ha.
    replace ((90 + 90 - 2 * 90) * Double.M_PI / 180) with 0 by lra.
    rewrite cos_0. lra. }
  rewrite Hx, Hp'. unfold chassis_setPose, call; simpl.
  now rewrite <- app_assoc.
Qed.

(** ** The polling loop *)

Lemma poll_true_inv (sensor : nat -> Z) (th : R) (k : nat) :
  fst (poll sensor th k) = true ->
  sensor k <> PROS_ERR /\
  0 < IZR (sensor (S k)) / 25.4 <= th /\
  snd (poll sensor th k) = 2%nat.
Proof.
  unfold poll. destruct (Z.eqb_spec (sensor k) PROS_ERR) as [E|E]; simpl.
  - discriminate.
  - destruct (0 <? IZR (sensor (S k)) / 25.4) eqn:E1;
      destruct (IZR (sensor (S k)) / 25.4 <=? th) eqn:E2; simpl;
      try discriminate.
    apply ltb_true_iff in E1. apply leb_true_iff in E2. intros _.
    repeat split; assumption.
Qed.

(** What holds when the loop is left, from any state of the loop. *)
Lemma poll_loop_exit (sensor : nat -> Z) (th : R) (tmo elapsed : Z)
    (k n : nat) (st : Robot) (e : LoopExit) :
  poll_loop sensor th tmo elapsed k n st = Some e ->
  exists m : nat,
    exit_robot e = mkRobot (pose st) (calls st ++ repeat (delay 10) m) /\
    exit_elapsed e = (elapsed + 10 * Z.of_nat m)%Z /\
    exit_iterations e = (n + m + if exit_break e then 1 else 0)%nat /\
    (if exit_break e
     then (exit_elapsed e < tmo)%Z /\
          exists k', fst (poll sensor th k') = true /\
                     exit_reads e = (k' + 2)%nat
     else (tmo <= exit_elapsed e)%Z /\
          (m = 0%nat \/ exit_elapsed e - 10 < tmo)%Z).
Proof.
  funelim (poll_loop sensor th tmo elapsed k n st); intros He.
  - destruct (fst (poll sensor threshold_in k)) eqn:Ep.
    + injection He as <-. exists 0%nat; simpl.
      rewrite app_nil_r. destruct st; simpl.
      split; [reflexivity|]. split; [lia|]. split; [lia|]. split; [exact l|].
      exists k. split; [exact Ep|].
      now destruct (poll_true_inv _ _ _ Ep) as (_ & _ & ->).
    + destruct (CInt.in_range (elapsed + 10)) eqn:Er; [|discriminate].
      destruct (H e He) as (m & Hr & Hel & Hit & Hb).
      exists (S m). simpl in Hr. rewrite <- app_assoc in Hr. simpl in Hr.
      replace (delay 10 :: repeat (delay 10) m)
        with (repeat (delay 10) (S m)) in Hr by reflexivity.
      split; [exact Hr|]. split; [lia|]. split; [lia|].
      destruct (exit_break e).
      * exact Hb.
      * split; [lia|]. right. destruct Hb as [Hb [-> | Hb']]; lia.
  - injection He as <-. exists 0%nat; simpl.
    rewrite app_nil_r. destruct st; simpl.
    split; [reflexivity|]. split; [lia|]. split; [lia|]. split; [lia|].
    left; reflexivity.
Qed.

(** Up to a timeout of 2147483640 the increment of [elapsed] cannot
    overflow, and the loop is left. *)
Lemma poll_loop_defined (sensor : nat -> Z) (th : R) (tmo elapsed : Z)
    (k n : nat) (st : Robot) :
  (0 <= elapsed)%Z -> (elapsed mod 10 = 0)%Z -> (tmo <= 2147483640)%Z ->
  exists e, poll_loop sensor th tmo elapsed k n st = Some e.
Proof.
  funelim (poll_loop sensor th tmo elapsed k n st); intros H0 Hm Ht.
  - destruct (fst (poll sensor threshold_in k)); [eexists; reflexivity|].
    assert (Hr : CInt.in_range (elapsed + 10) = true).
    { pose proof (Z.div_mod elapsed 10 ltac:(lia)) as D. rewrite Hm in D.
      unfold CInt.in_range, CInt.INT_MIN, CInt.INT_MAX.
      apply andb_true_iff; split; apply Z.leb_le; lia. }
    rewrite Hr. apply H; try lia.
    rewrite <- Zplus_mod_idemp_l, Hm. reflexivity.
  - eexists; reflexivity.
Qed.

(** Above it, a loop that never reaches [break] runs into the overflow of
    [elapsed += 10]. *)
Lemma poll_loop_overflow (sensor : nat -> Z) (th : R) (tmo elapsed : Z)
    (k n : nat) (st : Robot) :
  (0 <= elapsed <= CInt.INT_MAX)%Z -> (elapsed mod 10 = 0)%Z ->
  (2147483640 < tmo)%Z -> never_stops sensor th ->
  poll_loop sensor th tmo elapsed k n st = None.
Proof.
  funelim (poll_loop sensor th tmo elapsed k n st); intros H0 Hm Ht Hn.
  - rewrite (Hn k).
    destruct (CInt.in_range (elapsed + 10)) eqn:Hr; [|reflexivity].
    apply H; try assumption.
    + unfold CInt.in_range in Hr. apply andb_true_iff in Hr as [_ Hr].
      apply Z.leb_le in Hr. lia.
    + rewrite <- Zplus_mod_idemp_l, Hm. reflexivity.
  - exfalso. unfold CInt.INT_MAX in H0.
    assert (elapsed <= 2147483640)%Z; [|lia].
    pose proof (Z.div_mod elapsed 10 ltac:(lia)) as D. rewrite Hm in D. lia.
Qed.

Lemma poll_loop_never (sensor : nat -> Z) (th : R) (tmo elapsed : Z)
    (k n : nat) (st : Robot) (e : LoopExit) :
  never_stops sensor th ->
  poll_loop sensor th tmo elapsed k n st = Some e -> exit_break e = false.
Proof.
  intros Hn He.
  destruct (poll_loop_exit _ _ _ _ _ _ _ _ He) as (m & _ & _ & _ & Hb).
  destruct (exit_break e); [|reflexivity].
  destruct Hb as (_ & k' & Hk & _). now rewrite (Hn k') in Hk.
Qed.

Lemma driveUntilDistance_calls (sensor : nat -> Z) (th : R)
    (speed : Z) (forwards : bool) (tmo : Z) (st : Robot) (e : LoopExit)
    (m : nat) :
  let out := ((if forwards then 1 else -1) * speed)%Z in
  CInt.in_range out = true ->
  poll_loop sensor th tmo 0 0 0 (call (tank out out true) st) = Some e ->
  exit_robot e
  = mkRobot (pose st) ((calls st ++ [tank out out true])
                       ++ repeat (delay 10) m) ->
  driveUntilDistance sensor th speed forwards tmo st
  = Some (mkRobot (pose st)
            (calls st ++ tank out out true :: repeat (delay 10) m
             ++ [setBrakeMode E_MOTOR_BRAKE_HOLD; tank 0 0 true])).
Proof.
  intros out Hr He Hx. unfold driveUntilDistance, CInt.checked.
  fold out. rewrite Hr, He, Hx. unfold call; simpl.
  rewrite <- !app_assoc. reflexivity.
Qed.

(** The loop as the source writes it. *)
Lemma poll_loop_while (sensor : nat -> Z) (th : R) (tmo elapsed : Z)
    (k n : nat) (st : Robot) :
  poll_loop sensor th tmo elapsed k n st
  = if (elapsed <? tmo)%Z then
      if fst (poll sensor th k) then
        Some (mkLoopExit elapsed (S n) (k + snd (poll sensor th k)) true st)
      else if CInt.in_range (elapsed + 10) then
        poll_loop sensor th tmo (elapsed + 10) (k + snd (poll sensor th k))
          (S n) (call (delay 10) st)
      else None
    else Some (mkLoopExit elapsed n k false st).
Proof.
  funelim (poll_loop sensor th tmo elapsed k n st);
    destruct (Z.ltb_spec elapsed timeout_ms); try lia; reflexivity.
Qed.

Lemma sentinel_never_stops (th : R) : never_stops (fun _ => PROS_ERR) th.
Proof. intros k. reflexivity. Qed.

(** C6, as amended.  For every timeout up to 2147483640 the loop is left
    after at most [max 0 (ceil (timeout_ms / 10))] entries of its body,
    with [elapsed] ten times the number of delays made, and
    [driveUntilDistance] (for a speed whose signed product with the
    direction is an [int]) then sets the brake mode to hold and the outputs
    to zero.  When no poll reaches [break], the loop is left by its guard
    after exactly that many entries, with [elapsed >= timeout_ms] and, for
    a timeout that is not negative, [elapsed < timeout_ms + 10]. *)
Theorem polling_terminates (sensor : nat -> Z) (th : R) (speed : Z)
    (forwards : bool) (tmo : Z) (st : Robot) :
  let out := ((if forwards then 1 else -1) * speed)%Z in
  (tmo <= 2147483640)%Z ->
  exists e m,
    poll_loop sensor th tmo 0 0 0 (call (tank out out true) st) = Some e /\
    (Z.of_nat (exit_iterations e) <= Z.max 0 ((tmo + 9) / 10))%Z /\
    exit_elapsed e = (10 * Z.of_nat m)%Z /\
    (CInt.in_range out = true ->
     driveUntilDistance sensor th speed forwards tmo st
     = Some (mkRobot (pose st)
               (calls st ++ tank out out true :: repeat (delay 10) m
                ++ [setBrakeMode E_MOTOR_BRAKE_HOLD; tank 0 0 true]))) /\
    (never_stops sensor th ->
     exit_break e = false /\
     (tmo <= exit_elapsed e)%Z /\
     (0 <= tmo -> exit_elapsed e < tmo + 10)%Z /\
     Z.of_nat (exit_iterations e) = Z.max 0 ((tmo + 9) / 10)).
Proof.
  intros out Ht.
  destruct (poll_loop_defined sensor th tmo 0 0 0 (call (tank out out true) st))
    as [e He]; [lia | reflexivity | exact Ht |].
  destruct (poll_loop_exit _ _ _ _ _ _ _ _ He) as (m & Hx & Hel & Hit & Hb).
  pose proof (Z.div_mod (tmo + 9) 10 ltac:(lia)) as D.
  pose proof (Z.mod_pos_bound (tmo + 9) 10 ltac:(lia)) as B.
  exists e, m. split; [exact He|]. split.
  { destruct (exit_break e).
    - destruct Hb as [Hb _]. lia.
    - destruct Hb as [Hb [-> | Hb']]; lia. }
  split; [lia|]. split.
  { intros Hr.
    now apply (driveUntilDistance_calls sensor th speed forwards tmo st e m). }
  intros Hn. pose proof (poll_loop_never _ _ _ _ _ _ _ _ Hn He) as Hf.
  rewrite Hf in Hb, Hit. split; [exact Hf|].
  destruct Hb as [Hb Hb']. split; [exact Hb|]. split.
  - intros H0. destruct Hb' as [-> | Hb']; lia.
  - destruct Hb' as [-> | Hb']; lia.
Qed.

Lemma polling_terminates_witness :
  let sensor := fun _ : nat => PROS_ERR in
  let st := mkRobot (mkPose 0 0 0) [] in
  (25 <= 2147483640)%Z /\
  exists e m,
    poll_loop sensor 3 25 0 0 0 (call (tank 60 60 true) st) = Some e /\
    exit_iterations e = 3%nat /\
    exit_elapsed e = 30%Z /\
    exit_break e = false /\
    driveUntilDistance sensor 3 60 true 25 st
    = Some (mkRobot (pose st)
              (calls st ++ tank 60 60 true :: repeat (delay 10) m
               ++ [setBrakeMode E_MOTOR_BRAKE_HOLD; tank 0 0 true])).
Proof.
  intros sensor st.
  assert (H1 : (25 <= 2147483640)%Z) by lia.
  split; [exact H1|].
  destruct (polling_terminates sensor 3 60 true 25 st H1)
    as (e & m & He & _ & Hel & Hd & Hn).
  destruct (Hn (sentinel_never_stops 3)) as (Hb & Hlo & Hhi & Hit).
  exists e, m. split; [exact He|].
  split; [apply Nat2Z.inj; exact Hit|].
  split; [specialize (Hhi ltac:(lia)); lia|].
  split; [exact Hb|]. exact (Hd eq_refl).
Defined.

Lemma nonpositive_timeout_exit (sensor : nat -> Z) (th : R) (tmo : Z)
    (st : Robot) :
  (tmo <= 0)%Z ->
  poll_loop sensor th tmo 0 0 0 st = Some (mkLoopExit 0 0 0 false st).
Proof.
  intros Ht. rewrite poll_loop_while.
  destruct (Z.ltb_spec 0 tmo); [lia | reflexivity].
Qed.

(** C6 fails for a negative timeout: with [timeout_ms = -50] the body is
    never entered and the loop is left with [elapsed = 0], which is 50
    above the timeout, not within 10 of it. *)
Lemma negative_timeout_counterexample : ~ polling_bound (-50).
Proof.
  intros C.
  destruct (C (fun _ => PROS_ERR) 3 (mkRobot (mkPose 0 0 0) []))
    as (e & He & _ & Hb).
  specialize (Hb (sentinel_never_stops 3)).
  rewrite nonpositive_timeout_exit in He by lia. injection He as <-.
  simpl in Hb. lia.
Qed.

(** It fails at the top of the range as well: with [timeout_ms = INT_MAX]
    and a sensor that never satisfies the stop condition, [elapsed]
    reaches 2147483640 and [elapsed += 10] overflows. *)
Lemma int_max_timeout_overflows (th : R) (speed : Z) (forwards : bool)
    (st : Robot) :
  driveUntilDistance (fun _ => PROS_ERR) th speed forwards CInt.INT_MAX st
  = None.
Proof.
  unfold driveUntilDistance.
  destruct (CInt.checked _); [|reflexivity].
  rewrite poll_loop_overflow; try reflexivity.
  - unfold CInt.INT_MAX; lia.
  - apply sentinel_never_stops.
Qed.

(** ** The stop condition *)

Lemma sentinel_implausible : ~ plausible (IZR PROS_ERR / 25.4).
Proof. unfold plausible, PROS_ERR. lra. Qed.

Lemma poll_false (sensor : nat -> Z) (th : R) (k : nat) :
  sensor k = PROS_ERR \/ ~ 0 < IZR (sensor (S k)) / 25.4 <= th ->
  fst (poll sensor th k) = false.
Proof.
  intros H. destruct (fst (poll sensor th k)) eqn:E; [|reflexivity].
  apply poll_true_inv in E as (Hs & Hd & _). destruct H; contradiction.
Qed.

(** C7, as amended.  A poll does not reach [break] when the read that is
    compared with [PROS_ERR] is the sentinel, or when the converted reading
    is not in [(0, threshold_in]]; so, for a threshold of at most 200, no
    sentinel and no reading outside the window [(0, 200]] stops the loop.
    The loop is left by [break] only after a poll whose first read is not
    the sentinel and whose converted reading lies in [(0, threshold_in]];
    otherwise it runs until [elapsed >= timeout_ms]. *)
Theorem stop_only_on_reading_in_range (sensor : nat -> Z) (th : R)
    (tmo : Z) (st : Robot) (e : LoopExit) :
  poll_loop sensor th tmo 0 0 0 st = Some e ->
  (forall k, sensor k = PROS_ERR \/ ~ 0 < IZR (sensor (S k)) / 25.4 <= th ->
             fst (poll sensor th k) = false) /\
  (th <= 200 ->
   forall k, sensor k = PROS_ERR \/ sensor (S k) = PROS_ERR \/
             ~ plausible (IZR (sensor (S k)) / 25.4) ->
             fst (poll sensor th k) = false) /\
  (if exit_break e
   then exists k, sensor k <> PROS_ERR /\
                  0 < IZR (sensor (S k)) / 25.4 <= th /\
                  exit_reads e = (k + 2)%nat /\
                  (exit_elapsed e < tmo)%Z
   else (tmo <= exit_elapsed e)%Z).
Proof.
  intros He. split; [apply poll_false|]. split.
  - intros Hth k H. apply poll_false.
    destruct H as [H | [H | H]].
    + now left.
    + right. rewrite H. pose proof sentinel_implausible as S.
      unfold plausible in S. lra.
    + right. unfold plausible in H. lra.
  - destruct (poll_loop_exit _ _ _ _ _ _ _ _ He) as (m & _ & _ & _ & Hb).
    destruct (exit_break e).
    + destruct Hb as (Hlt & k & Hk & Hr).
      apply poll_true_inv in Hk as (Hs & Hd & _).
      exists k. repeat split; try assumption; apply Hd.
    + apply Hb.
Qed.

(** A first poll that is not the sentinel and whose reading is in
    [(0, threshold_in]] leaves the loop at once. *)
Lemma poll_loop_first_poll (sensor : nat -> Z) (th : R) (tmo : Z)
    (st : Robot) :
  (0 < tmo)%Z -> sensor 0%nat <> PROS_ERR ->
  0 < IZR (sensor 1%nat) / 25.4 <= th ->
  poll_loop sensor th tmo 0 0 0 st = Some (mkLoopExit 0 1 2 true st).
Proof.
  intros Ht Hs Hd. rewrite poll_loop_while.
  destruct (Z.ltb_spec 0 tmo); [|lia].
  unfold poll. destruct (Z.eqb_spec (sensor 0%nat) PROS_ERR); [contradiction|].
  simpl.
  decide_cmp.
  reflexivity.
Qed.

Lemma stop_only_on_reading_in_range_witness :
  let sensor := fun _ : nat => 76%Z in
  let st := mkRobot (mkPose 0 0 0) [] in
  poll_loop sensor 3 3000 0 0 0 st = Some (mkLoopExit 0 1 2 true st) /\
  3 <= 200 /\
  (forall k, sensor k = PROS_ERR \/ sensor (S k) = PROS_ERR \/
             ~ plausible (IZR (sensor (S k)) / 25.4) ->
             fst (poll sensor 3 k) = false) /\
  exists k, sensor k <> PROS_ERR /\
            0 < IZR (sensor (S k)) / 25.4 <= 3 /\
            2%nat = (k + 2)%nat /\ (0 < 3000)%Z.
Proof.
  intros sensor st.
  assert (H : poll_loop sensor 3 3000 0 0 0 st = Some (mkLoopExit 0 1 2 true st)).
  { apply poll_loop_first_poll; unfold sensor; [lia | discriminate | lra]. }
  assert (H' : 3 <= 200) by lra.
  split; [exact H|]. split; [exact H'|].
  destruct (stop_only_on_reading_in_range sensor 3 3000 st _ H)
    as (_ & H2 & H3).
  split; [exact (H2 H') | exact H3].
Defined.

(** C7, as stated, fails for a threshold above 200: with
    [threshold_in = 300] a sensor at 6350 mm (250 in, outside the window
    [(0, 200]]) reaches [break] at the first poll. *)
Lemma large_threshold_counterexample :
  let sensor := fun _ : nat => 6350%Z in
  let st := mkRobot (mkPose 0 0 0) [] in
  ~ plausible (IZR (sensor 1%nat) / 25.4) /\
  fst (poll sensor 300 0) = true /\
  poll_loop sensor 300 3000 0 0 0 st = Some (mkLoopExit 0 1 2 true st).
Proof.
  intros sensor st.
  assert (H : poll_loop sensor 300 3000 0 0 0 st
              = Some (mkLoopExit 0 1 2 true st)).
  { apply poll_loop_first_poll; unfold sensor; [lia | discriminate | lra]. }
  split; [unfold plausible, sensor; lra|]. split; [|exact H].
  unfold poll, sensor; simpl.
  decide_cmp.
  reflexivity.
Qed.

(** ** The pose during an approach *)

Lemma drive_call_repeat_delay (m : nat) : Forall drive_call (repeat (delay 10) m).
Proof.
  apply Forall_forall. intros c Hc. apply repeat_spec in Hc. now subst c.
Qed.

(** The loop with the tracking task, as the source writes it. *)
Lemma poll_loop_odom_while (odometry : Odometry) (sensor : nat -> Z) (th : R)
    (tmo elapsed : Z) (k n : nat) (st : Robot) :
  poll_loop_odom odometry sensor th tmo elapsed k n st
  = if (elapsed <? tmo)%Z then
      if fst (poll sensor th k) then
        Some (mkLoopExit elapsed (S n) (k + snd (poll sensor th k)) true st)
      else if CInt.in_range (elapsed + 10) then
        poll_loop_odom odometry sensor th tmo (elapsed + 10)
          (k + snd (poll sensor th k)) (S n) (pros_delay odometry n 10 st)
      else None
    else Some (mkLoopExit elapsed n k false st).
Proof.
  funelim (poll_loop_odom odometry sensor th tmo elapsed k n st);
    destruct (Z.ltb_spec elapsed timeout_ms); try lia; reflexivity.
Qed.

(** The loop adds delays to the log, and the pose it leaves is the one the
    tracking task made during them. *)
Lemma poll_loop_odom_exit (odometry : Odometry) (sensor : nat -> Z) (th : R)
    (tmo elapsed : Z) (k n : nat) (st : Robot) (e : LoopExit) :
  poll_loop_odom odometry sensor th tmo elapsed k n st = Some e ->
  exists m : nat,
    exit_robot e = mkRobot (odometry_run odometry n m (pose st))
                     (calls st ++ repeat (delay 10) m).
Proof.
  funelim (poll_loop_odom odometry sensor th tmo elapsed k n st); intros He.
  - destruct (fst (poll sensor threshold_in k)).
    + injection He as <-. exists 0%nat; simpl.
      rewrite app_nil_r. now destruct st.
    + destruct (CInt.in_range (elapsed + 10)); [|discriminate].
      destruct (H e He) as (m & Hr).
      exists (S m). rewrite Hr. simpl. now rewrite <- app_assoc.
  - injection He as <-. exists 0%nat; simpl.
    rewrite app_nil_r. now destruct st.
Qed.

(** Whatever the tracking task does, the loop takes the same course as
    with a pose that stands still: the pose is never read. *)
Lemma poll_loop_odom_view (odometry : Odometry) (sensor : nat -> Z) (th : R)
    (tmo elapsed : Z) (k n : nat) (st : Robot) :
  forall st0 : Robot, calls st0 = calls st ->
  option_map exit_view (poll_loop_odom odometry sensor th tmo elapsed k n st)
  = option_map exit_view (poll_loop sensor th tmo elapsed k n st0).
Proof.
  funelim (poll_loop_odom odometry sensor th tmo elapsed k n st);
    intros st0 Hc; rewrite poll_loop_while;
    destruct (Z.ltb_spec elapsed timeout_ms); try lia.
  - destruct (fst (poll sensor threshold_in k)).
    + unfold exit_view; simpl. now rewrite Hc.
    + destruct (CInt.in_range (elapsed + 10)); [|reflexivity].
      apply H. simpl. now rewrite Hc.
  - unfold exit_view; simpl. now rewrite Hc.
Qed.

Lemma odometry_run_quiet (odometry : Odometry) (j : nat) :
  forall (n : nat) (p : Pose),
  (forall i q, (n <= i < n + j)%nat -> odometry i q = q) ->
  odometry_run odometry n j p = p.
Proof.
  induction j as [|j IH]; intros n p Hq; simpl; [reflexivity|].
  rewrite (Hq n p) by lia. apply IH. intros i q Hi. apply Hq. lia.
Qed.

(** C10, as amended.  [driveUntilDistance] completes for every speed whose
    signed product with the direction is an [int] and every timeout up to
    2147483640, and a run that completes never reads or writes the pose:
    the calls it makes are one [tank], then delays of 10 ms, then
    [setBrakeMode] and [tank], never [getPose] or [setPose], and they are the
    calls of the run in which the pose stands still.  The pose after the
    run is therefore the one the tracking task made of the pose before it
    during the delays of the loop; it is the pose before the run when the
    tracking task left the estimate alone during those delays. *)
Theorem driveUntilDistance_pose_frame (odometry : Odometry)
    (sensor : nat -> Z) (th : R) (speed : Z) (forwards : bool) (tmo : Z)
    (st : Robot) :
  let out := ((if forwards then 1 else -1) * speed)%Z in
  (CInt.in_range out = true -> (tmo <= 2147483640)%Z ->
   exists st',
     driveUntilDistance_odom odometry sensor th speed forwards tmo st
     = Some st') /\
  (forall st',
     driveUntilDistance_odom odometry sensor th speed forwards tmo st
     = Some st' ->
     exists (j : nat) (new : list Call),
       new = tank out out true :: repeat (delay 10) j
             ++ [setBrakeMode E_MOTOR_BRAKE_HOLD; tank 0 0 true] /\
       calls st' = calls st ++ new /\
       Forall drive_call new /\
       ~ In getPose new /\
       (forall nx ny nt, ~ In (setPose nx ny nt) new) /\
       option_map calls (driveUntilDistance sensor th speed forwards tmo st)
       = Some (calls st') /\
       pose st' = odometry_run odometry 0 j (pose st) /\
       ((forall i q, (i < j)%nat -> odometry i q = q) -> pose st' = pose st)).
Proof.
  intros out. split.
  - intros Hr Ht. unfold driveUntilDistance_odom, CInt.checked.
    fold out. rewrite Hr.
    destruct (poll_loop_defined sensor th tmo 0 0 0
                (call (tank out out true) st)) as [e0 He0];
      [lia | reflexivity | exact Ht |].
    pose proof (poll_loop_odom_view odometry sensor th tmo 0 0 0
                  (call (tank out out true) st) _ eq_refl) as V.
    rewrite He0 in V.
    destruct (poll_loop_odom _ _ _ _ _ _ _ _) as [e|]; [|discriminate].
    eexists; reflexivity.
  - intros st' H. unfold driveUntilDistance_odom in H.
    unfold driveUntilDistance. fold out in H |- *.
    destruct (CInt.checked out) as [o|] eqn:Eo; [|discriminate].
    assert (o = out) as ->.
    { unfold CInt.checked in Eo.
      destruct (CInt.in_range out); congruence. }
    pose proof (poll_loop_odom_view odometry sensor th tmo 0 0 0
                  (call (tank out out true) st) _ eq_refl) as V.
    destruct (poll_loop_odom _ _ _ _ _ _ _ _) as [e|] eqn:He;
      [|discriminate].
    destruct (poll_loop_odom_exit _ _ _ _ _ _ _ _ _ He) as (j & Hx).
    destruct (poll_loop _ _ _ _ _ _ _) as [e0|]; [|discriminate].
    injection V as _ _ _ _ Vc.
    injection H as <-.
    exists j. eexists. split; [reflexivity|].
    assert (F : Forall drive_call
                  (tank out out true :: repeat (delay 10) j
                   ++ [setBrakeMode E_MOTOR_BRAKE_HOLD; tank 0 0 true])).
    { constructor; [exact I|]. apply Forall_app. split.
      - apply drive_call_repeat_delay.
      - repeat constructor. }
    split; [rewrite Hx; simpl; now rewrite <- !app_assoc|].
    split; [exact F|].
    rewrite Forall_forall in F.
    split; [intros Hin; exact (F _ Hin)|].
    split; [intros nx ny nt Hin; exact (F _ Hin)|].
    split; [simpl; now rewrite <- Vc|].
    rewrite Hx. simpl. split; [reflexivity|].
    intros Hq. apply odometry_run_quiet. intros i q Hi. apply Hq. lia.
Qed.

Lemma driveUntilDistance_pose_frame_witness :
  let odometry : Odometry := fun _ p => p in
  let sensor := fun _ : nat => 76%Z in
  let st := mkRobot (mkPose 1 2 3) [getPose] in
  exists st' j,
    driveUntilDistance_odom odometry sensor 3 50 false 3000 st = Some st' /\
    calls st'
    = calls st ++ tank (-50) (-50) true :: repeat (delay 10) j
                  ++ [setBrakeMode E_MOTOR_BRAKE_HOLD; tank 0 0 true] /\
    pose st' = pose st.
Proof.
  intros odometry sensor st.
  destruct (driveUntilDistance_pose_frame odometry sensor 3 50 false 3000 st)
    as [Hdef Hframe].
  destruct Hdef as [st' H]; [reflexivity | lia |].
  destruct (Hframe st' H) as (j & new & -> & Hc & _ & _ & _ & _ & _ & Hq).
  exists st', j. split; [exact H|]. split; [exact Hc|].
  apply Hq. reflexivity.
Defined.

(** C10, as stated, fails as soon as the tracking task moves the estimate
    while the approach sleeps.  The robot drives forward at heading 0 from
    the origin towards a wall; the sensor reads 254 mm at the first two
    polls and 76 mm, below the threshold of 3 inches, at the third; during
    each of the two delays the tracking task advances [y] by a quarter of an
    inch.  The run makes no [getPose] and no [setPose], and the pose after
    it is not the pose before it. *)
Lemma moving_estimate_counterexample :
  let odometry : Odometry := fun _ p => mkPose (x p) (y p + / 4) (theta p) in
  let sensor := fun k : nat => if (k <? 4)%nat then 254%Z else 76%Z in
  let st := mkRobot (mkPose 0 0 0) [] in
  driveUntilDistance_odom odometry sensor 3 50 true 3000 st
  = Some (mkRobot (mkPose 0 (0 + / 4 + / 4) 0)
            [tank 50 50 true; delay 10; delay 10;
             setBrakeMode E_MOTOR_BRAKE_HOLD; tank 0 0 true]) /\
  mkPose 0 (0 + / 4 + / 4) 0 <> pose st.
Proof.
  intros odometry sensor st. split.
  - assert (P0 : poll sensor 3 0 = (false, 2%nat)).
    { unfold poll, sensor; simpl. decide_cmp. reflexivity. }
    assert (P2 : poll sensor 3 2 = (false, 2%nat)).
    { unfold poll, sensor; simpl. decide_cmp. reflexivity. }
    assert (P4 : poll sensor 3 4 = (true, 2%nat)).
    { unfold poll, sensor; simpl. decide_cmp. reflexivity. }
    unfold driveUntilDistance_odom; simpl.
    rewrite poll_loop_odom_while, P0; simpl.
    rewrite poll_loop_odom_while, P2; simpl.
    rewrite poll_loop_odom_while, P4; simpl.
    reflexivity.
  - simpl. intros [= E]. lra.
Qed.

(** * Further properties of the reset operations *)

(** ** Range of the angle and of the corrected heading *)

Lemma atan_nonpos (v : R) : v <= 0 -> atan v <= 0.
Proof.
  intros [H | ->].
  - rewrite <- atan_0. left. now apply atan_increasing.
  - rewrite atan_0. lra.
Qed.

Lemma atan_pos (v : R) : 0 < v -> 0 < atan v.
Proof. intros H. rewrite <- atan_0. now apply atan_increasing. Qed.

Lemma atan2_range (b a : R) : - PI < Double.atan2 b a <= PI.
Proof.
  pose proof PI_RGT_0 as HPI. unfold Double.atan2.
  destruct (Rlt_dec 0 a) as [Ha | Ha].
  { pose proof (atan_bound (b / a)). lra. }
  destruct (Rlt_dec a 0) as [Ha' | Ha'].
  - pose proof (atan_bound (b / a)) as Hb.
    assert (Hi : / a < 0) by now apply Rinv_lt_0_compat.
    destruct (Rle_dec 0 b) as [Hb0 | Hb0].
    + assert (Hq : b / a <= 0) by (unfold Rdiv; nra).
      pose proof (atan_nonpos _ Hq). lra.
    + assert (Hq : 0 < b / a) by (unfold Rdiv; nra).
      pose proof (atan_pos _ Hq). lra.
  - destruct (Rlt_dec 0 b); [lra|]. destruct (Rlt_dec b 0); lra.
Qed.

Lemma atan2_range_pos (b a : R) :
  0 < a -> - (PI / 2) < Double.atan2 b a < PI / 2.
Proof.
  intros Ha. unfold Double.atan2. destruct (Rlt_dec 0 a); [|contradiction].
  pose proof (atan_bound (b / a)). lra.
Qed.

Lemma degrees_range (r lo hi : R) :
  lo * PI <= r <= hi * PI -> lo * 180 <= r * 180 / Double.M_PI <= hi * 180.
Proof.
  intros H. pose proof PI_RGT_0 as HPI. unfold Double.M_PI.
  assert (Hi : 0 < / PI) by now apply Rinv_0_lt_compat.
  unfold Rdiv.
  replace (lo * 180) with (lo * PI * 180 * / PI) by (field; lra).
  replace (hi * 180) with (hi * PI * 180 * / PI) by (field; lra).
  split; apply Rmult_le_compat_r; lra.
Qed.

Lemma fmod_360_range (v : R) : 0 <= v -> 0 <= Double.fmod v 360 < 360.
Proof.
  intros Hv. unfold Double.fmod, CInt.trunc.
  destruct (Rle_dec 0 (v / 360)) as [H | H]; [|lra].
  pose proof (Zfloor_bound (v / 360)). lra.
Qed.

(** X1.  Whatever the spacing, the angle that [resetPositionAndHeadingBack]
    derives from two accepted readings lies in [(-180, 180]] degrees, and
    the heading it writes lies in [[0, 360)] and differs from
    [expected_perpendicular_heading - angle_to_wall_deg] by a whole number
    of turns. *)
Theorem back_heading_normalized (bl br : Z) (sp lo ro fh : R) (st : Robot)
    (n : Z) :
  0 <= IZR bl / 25.4 <= 200 -> 0 <= IZR br / 25.4 <= 200 ->
  headingDeg_of (theta (pose st) + 180) = Some n ->
  exists l st' (k : Z),
    back_locals (IZR bl / 25.4) (IZR br / 25.4) sp lo ro fh (pose st) = Some l /\
    resetPositionAndHeadingBack bl br sp lo ro fh st = Some st' /\
    -180 <= b_angle_to_wall_deg l <= 180 /\
    theta (pose st') = b_corrected_heading l /\
    0 <= theta (pose st') < 360 /\
    theta (pose st')
    = b_expected_perpendicular_heading l - b_angle_to_wall_deg l
      + 360 * IZR k.
Proof.
  intros Hl Hr Hn.
  destruct (back_locals_spec (IZR bl / 25.4) (IZR br / 25.4) sp lo ro fh
              (pose st) n Hn)
    as (l & Hloc & _ & Hw & Hrad & Hdeg & _ & _ & Hc).
  assert (He : 0 <= b_expected_perpendicular_heading l <= 270).
  { destruct (in_partition_Z_total n (headingDeg_of_range _ _ Hn)) as [w Hp].
    rewrite (back_wall_partition n w Hp) in Hw. injection Hw as _ _ ->.
    destruct w; simpl; lra. }
  assert (Ha : -180 <= b_angle_to_wall_deg l <= 180).
  { rewrite Hdeg.
    pose proof (atan2_range (IZR br / 25.4 - IZR bl / 25.4) sp) as Ht.
    rewrite <- Hrad in Ht.
    pose proof (degrees_range (b_angle_to_wall_rad l) (-1) 1) as D. lra. }
  exists l. eexists.
  exists (1 - CInt.trunc ((b_expected_perpendicular_heading l
                           - b_angle_to_wall_deg l + 360) / 360))%Z.
  split; [exact Hloc|].
  split; [exact (resetBack_accepted bl br sp lo ro fh st l Hl Hr Hloc)|].
  split; [exact Ha|]. unfold call, chassis_setPose; cbn [pose theta].
  split; [reflexivity|]. split.
  - rewrite Hc. apply fmod_360_range. lra.
  - rewrite Hc. unfold Double.fmod.
    rewrite ?minus_IZR, ?plus_IZR, ?opp_IZR. lra.
Qed.

Lemma back_heading_normalized_witness :
  let st := mkRobot (mkPose 0 0 0) [] in
  exists l st' (k : Z),
    back_locals (IZR 254 / 25.4) (IZR 381 / 25.4) 6 2 2 72 (pose st) = Some l /\
    resetPositionAndHeadingBack 254 381 6 2 2 72 st = Some st' /\
    -180 <= b_angle_to_wall_deg l <= 180 /\
    theta (pose st') = b_corrected_heading l /\
    0 <= theta (pose st') < 360 /\
    theta (pose st')
    = b_expected_perpendicular_heading l - b_angle_to_wall_deg l
      + 360 * IZR k.
Proof.
  intros st.
  apply (back_heading_normalized 254 381 6 2 2 72 st 180); [lra | lra |].
  heading_cast 180%Z.
Defined.

(** ** Symmetry of the back pair *)

Lemma atan2_opp_pos (b a : R) :
  0 < a -> Double.atan2 (- b) a = - Double.atan2 b a.
Proof.
  intros Ha. unfold Double.atan2. destruct (Rlt_dec 0 a); [|contradiction].
  replace (- b / a) with (- (b / a)) by (unfold Rdiv; ring).
  apply atan_opp.
Qed.

(** X2.  With a positive spacing, exchanging the two readings and the two
    offsets of the back pair negates [angle_to_wall] (in radians and in
    degrees) and changes nothing else: same wall flags, same corrected
    distance, same corrected coordinate. *)
Theorem back_swap_antisymmetry (dl dr sp lo ro fh : R) (p : Pose)
    (l : BackLocals) :
  0 < sp ->
  back_locals dl dr sp lo ro fh p = Some l ->
  exists l',
    back_locals dr dl sp ro lo fh p = Some l' /\
    b_angle_to_wall_rad l' = - b_angle_to_wall_rad l /\
    b_angle_to_wall_deg l' = - b_angle_to_wall_deg l /\
    b_corrected_distance l' = b_corrected_distance l /\
    b_resettingX l' = b_resettingX l /\
    b_wallSign l' = b_wallSign l /\
    b_actualPos l' = b_actualPos l.
Proof.
  intros Hsp H. pose proof (back_locals_inv _ _ _ _ _ _ _ _ H) as Hn.
  destruct (back_locals_spec dl dr sp lo ro fh p _ Hn)
    as (l0 & Hl0 & _ & Hw & Hrad & Hdeg & Hcd & Hp & _).
  rewrite H in Hl0. injection Hl0 as <-.
  destruct (back_locals_spec dr dl sp ro lo fh p _ Hn)
    as (l' & Hl' & _ & Hw' & Hrad' & Hdeg' & Hcd' & Hp' & _).
  exists l'. split; [exact Hl'|].
  assert (Er : b_angle_to_wall_rad l' = - b_angle_to_wall_rad l).
  { rewrite Hrad', Hrad. replace (dl - dr) with (- (dr - dl)) by ring.
    now apply atan2_opp_pos. }
  assert (Ec : b_corrected_distance l' = b_corrected_distance l).
  { rewrite Hcd', Hcd, Er, cos_neg. lra. }
  rewrite <- Hw in Hw'. injection Hw' as Hx Hs _.
  repeat split; try assumption.
  - rewrite Hdeg', Hdeg, Er. unfold Rdiv. ring.
  - rewrite Hp', Hp, Hs, Ec. reflexivity.
Qed.

Lemma back_swap_antisymmetry_witness :
  exists l l',
    back_locals 10 15 6 2 3 72 (mkPose 0 0 0) = Some l /\
    back_locals 15 10 6 3 2 72 (mkPose 0 0 0) = Some l' /\
    b_angle_to_wall_rad l' = - b_angle_to_wall_rad l /\
    b_actualPos l' = b_actualPos l.
Proof.
  assert (H : headingDeg_of (theta (mkPose 0 0 0) + 180) = Some 180%Z).
  { heading_cast 180%Z. }
  destruct (back_locals_spec 10 15 6 2 3 72 _ _ H) as (l & Hl & _).
  assert (Hsp : 0 < 6) by lra.
  destruct (back_swap_antisymmetry 10 15 6 2 3 72 _ l Hsp Hl)
    as (l' & Hl' & Hr & _ & _ & _ & _ & Hp).
  exists l, l'. repeat split; assumption.
Defined.

(** ** Bounds of the trigonometric correction *)

Lemma round_half (a : R) : - / 2 <= a - Double.round a <= / 2.
Proof.
  unfold Double.round. destruct (Rle_dec 0 a).
  - pose proof (Zfloor_bound (a + / 2)). lra.
  - pose proof (Zceil_bound (a - / 2)). lra.
Qed.

Lemma cos_quarter_bound (v : R) :
  - (PI / 4) <= v <= PI / 4 -> 1 / sqrt 2 <= cos v <= 1.
Proof.
  intros Hv. pose proof PI_RGT_0 as HPI. split; [|apply COS_bound].
  rewrite <- cos_PI4.
  destruct (Rle_dec 0 v).
  - apply cos_decr_1; lra.
  - rewrite <- (cos_neg v). apply cos_decr_1; lra.
Qed.

Lemma angle_off_range (e : R) :
  -45 <= e - Double.round (e / 90) * 90 <= 45.
Proof. pose proof (round_half (e / 90)). lra. Qed.

Lemma side_cos_bound (e : R) :
  1 / sqrt 2
  <= cos ((e - Double.round (e / 90) * 90) * Double.M_PI / 180) <= 1.
Proof.
  apply cos_quarter_bound. pose proof (angle_off_range e) as H.
  pose proof PI_RGT_0 as HPI. unfold Double.M_PI.
  split; nra.
Qed.

(** X3.  In [resetPositionLeft] and [resetPositionRight] the angle off the
    nearest perpendicular is at most 45 degrees either way, so for a
    reading that is not negative the corrected distance lies between
    [reading / sqrt 2 + sensor_offset] and [reading + sensor_offset]. *)
Theorem side_correction_bounds (r o fh : R) (p : Pose) :
  0 <= r ->
  (forall l, left_locals r o fh p = Some l ->
     -45 <= s_angle_off_deg l <= 45 /\
     r * (1 / sqrt 2) + o <= s_corrected_distance l <= r + o) /\
  (forall l, right_locals r o fh p = Some l ->
     -45 <= s_angle_off_deg l <= 45 /\
     r * (1 / sqrt 2) + o <= s_corrected_distance l <= r + o).
Proof.
  intros Hr. split; intros l H.
  - unfold left_locals in H.
    destruct (CInt.of_double (theta p + 270)); [|discriminate].
    destruct (left_wall _) as [rx sg]. injection H as <-. simpl.
    split; [apply angle_off_range|].
    pose proof (side_cos_bound (theta p + 270)). nra.
  - unfold right_locals in H.
    destruct (CInt.of_double (theta p + 90)); [|discriminate].
    destruct (right_wall _) as [rx sg]. injection H as <-. simpl.
    split; [apply angle_off_range|].
    pose proof (side_cos_bound (theta p + 90)). nra.
Qed.

Lemma side_correction_bounds_witness :
  exists l,
    left_locals 10 2 72 (mkPose 0 0 30) = Some l /\
    -45 <= s_angle_off_deg l <= 45 /\
    10 * (1 / sqrt 2) + 2 <= s_corrected_distance l <= 10 + 2.
Proof.
  assert (H : headingDeg_of (theta (mkPose 0 0 30) + 270) = Some 300%Z).
  { heading_cast 300%Z. }
  destruct (left_locals_spec 10 2 72 _ _ H) as (l & Hl & _).
  assert (Hr : 0 <= 10) by lra.
  exists l. split; [exact Hl|].
  exact (proj1 (side_correction_bounds 10 2 72 (mkPose 0 0 30) Hr) l Hl).
Defined.

(** ** A robot square to the wall *)

Lemma round_IZR (k : Z) : Double.round (IZR k) = IZR k.
Proof.
  unfold Double.round. destruct (Rle_dec 0 (IZR k)).
  - rewrite (Zfloor_eq k); [reflexivity | lra].
  - rewrite (Zceil_eq k); [reflexivity | lra].
Qed.

Lemma square_angle_off (e : R) (k : Z) :
  e = 90 * IZR k -> e - Double.round (e / 90) * 90 = 0.
Proof.
  intros ->. replace (90 * IZR k / 90) with (IZR k) by lra.
  rewrite round_IZR. lra.
Qed.

(** X4.  When the robot heading is a whole multiple of 90 degrees, the
    single-sensor operations apply no trigonometric correction: the angle
    off perpendicular is 0, the corrected distance is
    [reading + sensor_offset] and the corrected coordinate is
    [wallSign * (field_half - (reading + sensor_offset))]. *)
Theorem side_square_exact (r o fh : R) (p : Pose) (k : Z) :
  theta p = 90 * IZR k ->
  (forall l, left_locals r o fh p = Some l ->
     s_angle_off_deg l = 0 /\
     s_corrected_distance l = r + o /\
     s_actualPos l = s_wallSign l * (fh - (r + o))) /\
  (forall l, right_locals r o fh p = Some l ->
     s_angle_off_deg l = 0 /\
     s_corrected_distance l = r + o /\
     s_actualPos l = s_wallSign l * (fh - (r + o))).
Proof.
  intros Hk. split; intros l H.
  - assert (E : theta p + 270 - Double.round ((theta p + 270) / 90) * 90 = 0).
    { apply (square_angle_off _ (k + 3)). rewrite plus_IZR, Hk. lra. }
    unfold left_locals in H.
    destruct (CInt.of_double (theta p + 270)); [|discriminate].
    destruct (left_wall _) as [rx sg]. injection H as <-. simpl.
    rewrite E. replace (0 * Double.M_PI / 180) with 0 by lra.
    rewrite cos_0. repeat split; lra.
  - assert (E : theta p + 90 - Double.round ((theta p + 90) / 90) * 90 = 0).
    { apply (square_angle_off _ (k + 1)). rewrite plus_IZR, Hk. lra. }
    unfold right_locals in H.
    destruct (CInt.of_double (theta p + 90)); [|discriminate].
    destruct (right_wall _) as [rx sg]. injection H as <-. simpl.
    rewrite E. replace (0 * Double.M_PI / 180) with 0 by lra.
    rewrite cos_0. repeat split; lra.
Qed.

Lemma side_square_exact_witness :
  exists l,
    right_locals 5 1 72 (mkPose 0 0 90) = Some l /\
    s_angle_off_deg l = 0 /\
    s_corrected_distance l = 5 + 1 /\
    s_actualPos l = s_wallSign l * (72 - (5 + 1)).
Proof.
  assert (H : headingDeg_of (theta (mkPose 0 0 90) + 90) = Some 180%Z).
  { heading_cast 180%Z. }
  destruct (right_locals_spec 5 1 72 _ _ H) as (l & Hl & _).
  assert (Hk : theta (mkPose 0 0 90) = 90 * IZR 1) by (simpl; lra).
  exists l. split; [exact Hl|].
  exact (proj2 (side_square_exact 5 1 72 (mkPose 0 0 90) 1 Hk) l Hl).
Defined.

(** X5.  With equal readings [d] and a positive spacing the back pair
    applies no correction either: the corrected distance is [d] plus the
    mean of the two offsets, and the corrected coordinate is
    [wallSign * (field_half - d - (left_offset + right_offset) / 2)]. *)
Theorem back_square_exact (d sp lo ro fh : R) (p : Pose) (l : BackLocals) :
  0 < sp ->
  back_locals d d sp lo ro fh p = Some l ->
  b_corrected_distance l = d + (lo + ro) / 2 /\
  b_actualPos l = b_wallSign l * (fh - d - (lo + ro) / 2).
Proof.
  intros Hsp H. pose proof (back_locals_inv _ _ _ _ _ _ _ _ H) as Hn.
  destruct (back_locals_spec d d sp lo ro fh p _ Hn)
    as (l0 & Hl0 & _ & _ & Hrad & _ & Hcd & Hp & _).
  rewrite H in Hl0. injection Hl0 as <-.
  assert (E : b_corrected_distance l = d + (lo + ro) / 2).
  { rewrite Hcd, Hrad. replace (d - d) with 0 by ring.
    rewrite (atan2_zero sp Hsp), cos_0. lra. }
  split; [exact E|]. rewrite Hp, E. ring.
Qed.

Lemma back_square_exact_witness :
  exists l,
    back_locals 10 10 6 2 4 72 (mkPose 0 0 0) = Some l /\
    b_corrected_distance l = 10 + (2 + 4) / 2 /\
    b_actualPos l = b_wallSign l * (72 - 10 - (2 + 4) / 2).
Proof.
  assert (H : headingDeg_of (theta (mkPose 0 0 0) + 180) = Some 180%Z).
  { heading_cast 180%Z. }
  destruct (back_locals_spec 10 10 6 2 4 72 _ _ H) as (l & Hl & _).
  assert (Hsp : 0 < 6) by lra.
  exists l. split; [exact Hl|].
  exact (back_square_exact 10 6 2 4 72 _ l Hsp Hl).
Defined.

(** ** Repeating a single-sensor reset *)

Lemma left_locals_theta (r o fh : R) (p q : Pose) :
  theta p = theta q -> left_locals r o fh p = left_locals r o fh q.
Proof. intros H. unfold left_locals. now rewrite H. Qed.

Lemma right_locals_theta (r o fh : R) (p q : Pose) :
  theta p = theta q -> right_locals r o fh p = right_locals r o fh q.
Proof. intros H. unfold right_locals. now rewrite H. Qed.

(** X6.  [resetPositionLeft] and [resetPositionRight] are idempotent on the
    pose: a second call with the same reading, offset and field size,
    made right after the first, completes and leaves the pose the first
    call produced. *)
Theorem side_reset_idempotent (mm : Z) (o fh : R) (st st1 : Robot) :
  (resetPositionLeft mm o fh st = Some st1 ->
   exists st2, resetPositionLeft mm o fh st1 = Some st2 /\
               pose st2 = pose st1) /\
  (resetPositionRight mm o fh st = Some st1 ->
   exists st2, resetPositionRight mm o fh st1 = Some st2 /\
               pose st2 = pose st1).
Proof.
  split; intros H.
  - unfold resetPositionLeft in *.
    destruct ((IZR mm / 25.4 <? 0) || (200 <? IZR mm / 25.4)).
    + injection H as <-. eexists; split; reflexivity.
    + unfold chassis_getPose in *; cbn [fst snd] in *.
      destruct (left_locals (IZR mm / 25.4) o fh (pose st)) as [l|] eqn:E;
        [|discriminate].
      injection H as <-. cbn [pose chassis_setPose calls call].
      rewrite (left_locals_theta _ _ _ _ (pose st)) by reflexivity.
      rewrite E. eexists; split; [reflexivity|].
      cbn [pose chassis_setPose x y theta].
      destruct (s_resettingX l); reflexivity.
  - unfold resetPositionRight in *.
    destruct ((IZR mm / 25.4 <? 0) || (200 <? IZR mm / 25.4)).
    + injection H as <-. eexists; split; reflexivity.
    + unfold chassis_getPose in *; cbn [fst snd] in *.
      destruct (right_locals (IZR mm / 25.4) o fh (pose st)) as [l|] eqn:E;
        [|discriminate].
      injection H as <-. cbn [pose chassis_setPose calls call].
      rewrite (right_locals_theta _ _ _ _ (pose st)) by reflexivity.
      rewrite E. eexists; split; [reflexivity|].
      cbn [pose chassis_setPose x y theta].
      destruct (s_resettingX l); reflexivity.
Qed.

Lemma side_reset_idempotent_witness :
  let st := mkRobot (mkPose 7 8 90) [] in
  exists st1 st2,
    resetPositionRight 127 1 72 st = Some st1 /\
    resetPositionRight 127 1 72 st1 = Some st2 /\
    pose st2 = pose st1.
Proof.
  intros st. pose proof (scenario_B 7 8 []) as H. fold st in H.
  destruct (proj2 (side_reset_idempotent 127 1 72 st _) H) as (st2 & H2 & Hp).
  eexists. exists st2. split; [exact H|]. split; [exact H2 | exact Hp].
Defined.

(** ** Repeating the reset of the back pair *)

Lemma headingDeg_mod (t : Z) : Z.rem (Z.rem t 360 + 360) 360 = (t mod 360)%Z.
Proof.
  pose proof (Z.rem_bound_abs t 360).
  rewrite Z.rem_mod_nonneg by lia.
  pose proof (Z.quot_rem' t 360) as Q.
  replace (Z.rem t 360 + 360)%Z with (t + (1 - Z.quot t 360) * 360)%Z by lia.
  apply Z.mod_add; lia.
Qed.

(** A heading between two whole numbers of degrees truncates between
    them. *)
Lemma headingDeg_of_window (u : R) (lo hi : Z) :
  (0 <= lo)%Z -> (hi <= CInt.INT_MAX)%Z -> IZR lo <= u <= IZR hi ->
  exists t, (lo <= t <= hi)%Z /\ headingDeg_of u = Some (t mod 360)%Z.
Proof.
  intros Hlo Hhi Hu.
  assert (H0 : 0 <= u). { apply IZR_le in Hlo. lra. }
  exists (Zfloor u).
  assert (Ht : (lo <= Zfloor u <= hi)%Z).
  { split; [apply Zfloor_lub; lra|].
    apply le_IZR. pose proof (Zfloor_bound u). lra. }
  split; [exact Ht|].
  rewrite <- headingDeg_mod. apply of_double_headingDeg.
  unfold CInt.of_double, CInt.checked, CInt.trunc.
  destruct (Rle_dec 0 u); [|contradiction].
  unfold CInt.in_range, CInt.INT_MIN, CInt.INT_MAX in *.
  destruct (Z.leb_spec (-2147483648) (Zfloor u)); [|lia].
  destruct (Z.leb_spec (Zfloor u) 2147483647); [reflexivity|lia].
Qed.

Lemma fmod_360_eq (v : R) (q : Z) :
  0 <= v -> IZR q * 360 <= v < (IZR q + 1) * 360 ->
  Double.fmod v 360 = v - IZR q * 360.
Proof.
  intros Hv Hq. unfold Double.fmod.
  rewrite (trunc_nonneg _ q); lra.
Qed.

(** The heading written for a wall, with an angle of at most 44 degrees,
    makes the back of the robot look at that wall again. *)
Lemma corrected_heading_same_wall (w : Wall) (a : R) :
  -44 <= a <= 44 ->
  exists n2,
    headingDeg_of (Double.fmod (expected_heading w - a + 360) 360 + 180)
    = Some n2 /\
    in_partition_Z n2 w.
Proof.
  intros Ha. unfold CInt.INT_MAX.
  destruct w; simpl expected_heading.
  - rewrite (fmod_360_eq _ 1) by lra.
    destruct (headingDeg_of_window (180 - a + 360 - 1 * 360 + 180) 316 404)
      as (t & Ht & E); [lia | unfold CInt.INT_MAX; lia | lra |].
    exists (t mod 360)%Z. split; [exact E|]. simpl.
    pose proof (Z.div_mod t 360 ltac:(lia)).
    pose proof (Z.mod_pos_bound t 360 ltac:(lia)). lia.
  - rewrite (fmod_360_eq _ 1) by lra.
    destruct (headingDeg_of_window (270 - a + 360 - 1 * 360 + 180) 406 494)
      as (t & Ht & E); [lia | unfold CInt.INT_MAX; lia | lra |].
    exists (t mod 360)%Z. split; [exact E|]. simpl.
    pose proof (Z.div_mod t 360 ltac:(lia)).
    pose proof (Z.mod_pos_bound t 360 ltac:(lia)). lia.
  - destruct (Rlt_dec 0 a) as [Hp | Hp].
    + rewrite (fmod_360_eq _ 0) by lra.
      destruct (headingDeg_of_window (0 - a + 360 - 0 * 360 + 180) 496 540)
        as (t & Ht & E); [lia | unfold CInt.INT_MAX; lia | lra |].
      exists (t mod 360)%Z. split; [exact E|]. simpl.
      pose proof (Z.div_mod t 360 ltac:(lia)).
      pose proof (Z.mod_pos_bound t 360 ltac:(lia)). lia.
    + rewrite (fmod_360_eq _ 1) by lra.
      destruct (headingDeg_of_window (0 - a + 360 - 1 * 360 + 180) 180 224)
        as (t & Ht & E); [lia | unfold CInt.INT_MAX; lia | lra |].
      exists (t mod 360)%Z. split; [exact E|]. simpl.
      pose proof (Z.div_mod t 360 ltac:(lia)).
      pose proof (Z.mod_pos_bound t 360 ltac:(lia)). lia.
  - rewrite (fmod_360_eq _ 1) by lra.
    destruct (headingDeg_of_window (90 - a + 360 - 1 * 360 + 180) 226 314)
      as (t & Ht & E); [lia | unfold CInt.INT_MAX; lia | lra |].
    exists (t mod 360)%Z. split; [exact E|]. simpl.
    pose proof (Z.div_mod t 360 ltac:(lia)).
    pose proof (Z.mod_pos_bound t 360 ltac:(lia)). lia.
Qed.

(** X7.  When the angle measured by the back pair is at most 44 degrees
    either way, [resetPositionAndHeadingBack] is idempotent on the pose: the
    heading it writes makes the back face the same wall, so a second call
    with the same readings completes and leaves the pose the first call
    produced. *)
Theorem back_reset_idempotent (bl br : Z) (sp lo ro fh : R) (st : Robot)
    (l : BackLocals) :
  0 <= IZR bl / 25.4 <= 200 -> 0 <= IZR br / 25.4 <= 200 ->
  back_locals (IZR bl / 25.4) (IZR br / 25.4) sp lo ro fh (pose st) = Some l ->
  -44 <= b_angle_to_wall_deg l <= 44 ->
  exists st1 st2,
    resetPositionAndHeadingBack bl br sp lo ro fh st = Some st1 /\
    resetPositionAndHeadingBack bl br sp lo ro fh st1 = Some st2 /\
    pose st2 = pose st1.
Proof.
  intros Hl Hr Hloc Ha.
  pose proof (back_locals_inv _ _ _ _ _ _ _ _ Hloc) as Hn.
  destruct (back_locals_spec (IZR bl / 25.4) (IZR br / 25.4) sp lo ro fh
              (pose st) _ Hn)
    as (l0 & Hl0 & _ & Hw & Hrad & Hdeg & Hcd & Hp & Hc).
  rewrite Hloc in Hl0. injection Hl0 as <-.
  destruct (in_partition_Z_total _ (headingDeg_of_range _ _ Hn)) as [w Hpw].
  rewrite (back_wall_partition _ w Hpw) in Hw.
  injection Hw as Hrx Hsg Hex.
  destruct (corrected_heading_same_wall w (b_angle_to_wall_deg l) Ha)
    as (n2 & Hn2 & Hpw2).
  rewrite <- Hex, <- Hc in Hn2.
  pose proof (resetBack_accepted bl br sp lo ro fh st l Hl Hr Hloc) as H1.
  set (st1 := call (printf (ResetReport (b_actualPos l) (b_corrected_heading l)
                              (b_angle_to_wall_deg l)))
                (chassis_setPose
                   (if b_resettingX l then b_actualPos l else x (pose st))
                   (if b_resettingX l then y (pose st) else b_actualPos l)
                   (b_corrected_heading l) (call getPose st))) in *.
  assert (Ht : theta (pose st1) = b_corrected_heading l) by reflexivity.
  rewrite <- Ht in Hn2.
  destruct (back_locals_spec (IZR bl / 25.4) (IZR br / 25.4) sp lo ro fh
              (pose st1) n2 Hn2)
    as (l2 & Hl2 & _ & Hw2 & Hrad2 & Hdeg2 & Hcd2 & Hp2 & Hc2).
  rewrite (back_wall_partition _ w Hpw2) in Hw2.
  injection Hw2 as Hrx2 Hsg2 Hex2.
  assert (Edeg : b_angle_to_wall_deg l2 = b_angle_to_wall_deg l)
    by (rewrite Hdeg2, Hdeg, Hrad2, Hrad; reflexivity).
  assert (Epos : b_actualPos l2 = b_actualPos l)
    by (rewrite Hp2, Hp, Hsg2, Hsg, Hcd2, Hcd, Hrad2, Hrad; reflexivity).
  assert (Ehd : b_corrected_heading l2 = b_corrected_heading l)
    by (rewrite Hc2, Hc, Hex2, Hex, Edeg; reflexivity).
  exists st1. eexists. split; [exact H1|]. split.
  - exact (resetBack_accepted bl br sp lo ro fh st1 l2 Hl Hr Hl2).
  - unfold call, chassis_setPose; cbn [pose].
    rewrite Epos, Ehd, Hrx2. unfold st1, call, chassis_setPose; cbn [pose x y].
    rewrite Hrx. destruct (wall_axis w); reflexivity.
Qed.

Lemma back_reset_idempotent_witness :
  let st := mkRobot (mkPose 0 0 0) [] in
  exists st1 st2,
    resetPositionAndHeadingBack 254 254 6 2 2 72 st = Some st1 /\
    resetPositionAndHeadingBack 254 254 6 2 2 72 st1 = Some st2 /\
    pose st2 = pose st1.
Proof.
  intros st.
  destruct (scenario_A_locals 0 0) as (l & Hl & _ & _ & _ & Hd & _).
  apply (back_reset_idempotent 254 254 6 2 2 72 st l); [lra | lra | exact Hl |].
  rewrite Hd. lra.
Defined.

(** ** The approach stops at the first reading in range *)

Lemma poll_loop_runs (sensor : nat -> Z) (th : R) (tmo : Z) (d : nat) :
  forall (i : nat) (st : Robot),
  (forall m, (i <= m < i + d)%nat ->
             fst (poll sensor th (reads_before sensor th m)) = false) ->
  fst (poll sensor th (reads_before sensor th (i + d))) = true ->
  (10 * Z.of_nat (i + d) < tmo)%Z -> (tmo <= CInt.INT_MAX)%Z ->
  poll_loop sensor th tmo (10 * Z.of_nat i) (reads_before sensor th i) i st
  = Some (mkLoopExit (10 * Z.of_nat (i + d)) (S (i + d))
            (reads_before sensor th (i + d) + 2) true
            (mkRobot (pose st) (calls st ++ repeat (delay 10) d))).
Proof.
  induction d as [|d IH]; intros i st Hf Ht Hlt Hmax.
  - rewrite Nat.add_0_r in *. rewrite poll_loop_while.
    destruct (Z.ltb_spec (10 * Z.of_nat i) tmo); [|lia].
    rewrite Ht. destruct (poll_true_inv _ _ _ Ht) as (_ & _ & ->).
    simpl. rewrite app_nil_r. now destruct st.
  - rewrite poll_loop_while.
    destruct (Z.ltb_spec (10 * Z.of_nat i) tmo); [|lia].
    rewrite (Hf i) by lia.
    assert (Hr : CInt.in_range (10 * Z.of_nat i + 10) = true).
    { unfold CInt.in_range, CInt.INT_MIN, CInt.INT_MAX in *.
      apply andb_true_iff; split; apply Z.leb_le; lia. }
    rewrite Hr.
    replace (10 * Z.of_nat i + 10)%Z with (10 * Z.of_nat (S i))%Z by lia.
    change (reads_before sensor th i
            + snd (poll sensor th (reads_before sensor th i)))%nat
      with (reads_before sensor th (S i)).
    rewrite <- Nat.add_succ_comm in *.
    rewrite (IH (S i) (call (delay 10) st)); try assumption.
    + simpl. rewrite <- app_assoc. reflexivity.
    + intros m Hm. apply Hf. lia.
Qed.

(** X9.  [driveUntilDistance] stops at the first poll that satisfies the
    stop condition: if the [j]-th entry of the loop body is the first whose
    poll reaches [break], and it comes before the timeout
    ([10 * j < timeout_ms]), the run makes exactly [j] delays of 10 ms
    between the initial [tank] and the final brake-hold and zero output. *)
Theorem stops_at_first_poll_in_range (sensor : nat -> Z) (th : R)
    (speed : Z) (forwards : bool) (tmo : Z) (st : Robot) (j : nat) :
  let out := ((if forwards then 1 else -1) * speed)%Z in
  CInt.in_range out = true ->
  (tmo <= CInt.INT_MAX)%Z ->
  (10 * Z.of_nat j < tmo)%Z ->
  (forall m, (m < j)%nat ->
             fst (poll sensor th (reads_before sensor th m)) = false) ->
  fst (poll sensor th (reads_before sensor th j)) = true ->
  driveUntilDistance sensor th speed forwards tmo st
  = Some (mkRobot (pose st)
            (calls st ++ tank out out true :: repeat (delay 10) j
             ++ [setBrakeMode E_MOTOR_BRAKE_HOLD; tank 0 0 true])).
Proof.
  intros out Hr Hmax Hlt Hf Ht.
  pose proof (poll_loop_runs sensor th tmo j 0 (call (tank out out true) st))
    as H.
  simpl in H. specialize (H ltac:(intros m Hm; apply Hf; lia) Ht Hlt Hmax).
  apply (driveUntilDistance_calls sensor th speed forwards tmo st _ j Hr H).
  reflexivity.
Qed.

Lemma stops_at_first_poll_in_range_witness :
  let sensor := fun k : nat => if (k <? 4)%nat then 254%Z else 76%Z in
  let st := mkRobot (mkPose 0 0 0) [] in
  driveUntilDistance sensor 3 50 false 3000 st
  = Some (mkRobot (mkPose 0 0 0)
            [tank (-50) (-50) true; delay 10; delay 10;
             setBrakeMode E_MOTOR_BRAKE_HOLD; tank 0 0 true]).
Proof.
  intros sensor st.
  assert (P0 : poll sensor 3 0 = (false, 2%nat)).
  { unfold poll, sensor; simpl. decide_cmp. reflexivity. }
  assert (P2 : poll sensor 3 2 = (false, 2%nat)).
  { unfold poll, sensor; simpl. decide_cmp. reflexivity. }
  assert (P4 : poll sensor 3 4 = (true, 2%nat)).
  { unfold poll, sensor; simpl. decide_cmp. reflexivity. }
  assert (R1 : reads_before sensor 3 1 = 2%nat) by (simpl; now rewrite P0).
  assert (R2 : reads_before sensor 3 2 = 4%nat).
  { change (reads_before sensor 3 2)
      with (reads_before sensor 3 1
            + snd (poll sensor 3 (reads_before sensor 3 1)))%nat.
    rewrite R1, P2. reflexivity. }
  apply (stops_at_first_poll_in_range sensor 3 50 false 3000 st 2).
  - reflexivity.
  - unfold CInt.INT_MAX; lia.
  - lia.
  - intros m Hm.
    assert (Hm' : m = 0%nat \/ m = 1%nat) by lia.
    destruct Hm' as [-> | ->]; [simpl; now rewrite P0 | now rewrite R1, P2].
  - now rewrite R2, P4.
Defined.

(** * Joystick curves *)

Module CurveFacts.
Import PrimFloat Curves.
#[local] Open Scope Z_scope.

Lemma stick_range_forall (P : Z -> bool) :
  forallb P stick_range = true ->
  forall i, -127 <= i <= 127 -> P i = true.
Proof.
  intros H i Hi. rewrite forallb_forall in H. apply H.
  unfold stick_range. apply in_map_iff.
  exists (Z.to_nat (i + 127)). split; [lia|]. apply in_seq. lia.
Qed.

Lemma clamp_stick (v : Z) : -127 <= clamp v (-127) 127 <= 127.
Proof.
  unfold clamp. destruct (Z.ltb_spec v (-127)); [lia|].
  destruct (Z.ltb_spec 127 v); lia.
Qed.

Lemma clamp_inside (v : Z) : -127 <= v <= 127 -> clamp v (-127) 127 = v.
Proof.
  intros H. unfold clamp. destruct (Z.ltb_spec v (-127)); [lia|].
  destruct (Z.ltb_spec 127 v); lia.
Qed.

Lemma clamp_opp (v : Z) : clamp (- v) (-127) 127 = - clamp v (-127) 127.
Proof.
  unfold clamp.
  destruct (Z.ltb_spec (- v) (-127)); destruct (Z.ltb_spec v (-127));
    destruct (Z.ltb_spec 127 (- v)); destruct (Z.ltb_spec 127 v); lia.
Qed.

Lemma clamp_monotone (v v' : Z) :
  v <= v' -> clamp v (-127) 127 <= clamp v' (-127) 127.
Proof.
  intros H. unfold clamp.
  destruct (Z.ltb_spec v (-127)); destruct (Z.ltb_spec v' (-127));
    destruct (Z.ltb_spec 127 v); destruct (Z.ltb_spec 127 v'); lia.
Qed.

(** [applyCurve] sees its input through the clamp only. *)
Lemma applyCurve_clamp (exp tanh : float -> float) (i : Z) (c : CurveType)
    (p : float) :
  applyCurve exp tanh i c p
  = applyCurve exp tanh (clamp i (-127) 127) c p.
Proof.
  unfold applyCurve.
  now rewrite (clamp_inside (clamp i (-127) 127)) by apply clamp_stick.
Qed.

Lemma fixed_shape_output (exp tanh : float -> float) (i : Z)
    (c : CurveType) (p : float) :
  fixed_shape c p = true -> applyCurve exp tanh i c p = curve_output c i.
Proof.
  destruct c; simpl; intros H; try discriminate; try reflexivity.
  apply negb_true_iff in H. unfold curve_output, applyCurve.
  rewrite H. reflexivity.
Qed.

Lemma curve_output_clamp (c : CurveType) (i : Z) :
  curve_output c i = curve_output c (clamp i (-127) 127).
Proof. apply applyCurve_clamp. Qed.

(** The five shapes, for a case analysis that leaves out the two curves of
    [<cmath>]. *)
Lemma fixed_shape_cases (c : CurveType) (p : float) :
  fixed_shape c p = true ->
  c = LINEAR \/ c = SQUARED \/ c = CUBED \/ c = PIECEWISE \/ c = PLATEAU.
Proof. destruct c; simpl; intros H; try discriminate; tauto. Qed.

(** On the stick range every curve of fixed shape is defined, odd and
    never decreases from one input to the next. *)
Lemma stick_table (c : CurveType) (p : float) :
  fixed_shape c p = true ->
  forall i, -127 <= i <= 127 ->
    (fun i =>
       match curve_output c i, curve_output c (- i),
             curve_output c (i + 1) with
       | Some v, Some v', Some v1 =>
           (v' =? - v) && (v <=? v1) && (-127 <=? v) && (v <=? 127)
       | _, _, _ => false
       end) i = true.
Proof.
  intros H. apply fixed_shape_cases in H.
  destruct H as [-> | [-> | [-> | [-> | ->]]]];
    apply stick_range_forall; vm_compute; reflexivity.
Qed.

Lemma stick_output (c : CurveType) (p : float) (i : Z) :
  fixed_shape c p = true -> -127 <= i <= 127 ->
  exists v v' v1,
    curve_output c i = Some v /\ curve_output c (- i) = Some v' /\
    curve_output c (i + 1) = Some v1 /\
    v' = - v /\ v <= v1 /\ -127 <= v <= 127.
Proof.
  intros H Hi. pose proof (stick_table c p H i Hi) as T. simpl in T.
  destruct (curve_output c i) as [v|]; [|discriminate].
  destruct (curve_output c (- i)) as [v'|]; [|discriminate].
  destruct (curve_output c (i + 1)) as [v1|]; [|discriminate].
  apply andb_true_iff in T as [T T4]. apply andb_true_iff in T as [T T3].
  apply andb_true_iff in T as [T1 T2].
  exists v, v', v1. repeat split; try reflexivity; lia.
Qed.

(** X10.  For the curves whose shape is fixed (LINEAR, SQUARED, CUBED,
    PLATEAU, and PIECEWISE when [param > 0.01] is false, so that the
    breakpoint is its default 0.3) [applyCurve] is defined on every input
    and odd: the output for [- input] is the opposite of the output for
    [input]. *)
Theorem applyCurve_odd (exp tanh : float -> float) (i : Z) (c : CurveType)
    (p : float) :
  fixed_shape c p = true ->
  exists v,
    applyCurve exp tanh i c p = Some v /\
    applyCurve exp tanh (- i) c p = Some (- v).
Proof.
  intros H. rewrite !(fixed_shape_output exp tanh _ c p H).
  rewrite (curve_output_clamp c i), (curve_output_clamp c (- i)), clamp_opp.
  destruct (stick_output c p (clamp i (-127) 127) H (clamp_stick i))
    as (v & v' & _ & Hv & Hv' & _ & -> & _).
  exists v. split; assumption.
Qed.

Lemma applyCurve_odd_witness :
  exists v,
    applyCurve (fun d => d) (fun d => d) 60 PLATEAU 0%float = Some v /\
    applyCurve (fun d => d) (fun d => d) (- 60) PLATEAU 0%float = Some (- v).
Proof.
  apply (applyCurve_odd (fun d => d) (fun d => d) 60 PLATEAU 0%float).
  reflexivity.
Defined.

Lemma curve_output_monotone (c : CurveType) (p : float) (n : nat) :
  fixed_shape c p = true ->
  forall i, -127 <= i -> i + Z.of_nat n <= 127 ->
  exists v w,
    curve_output c i = Some v /\
    curve_output c (i + Z.of_nat n) = Some w /\ v <= w.
Proof.
  intros H. induction n as [|n IH]; intros i Hlo Hhi.
  - rewrite Z.add_0_r.
    destruct (stick_output c p i H ltac:(lia)) as (v & _ & _ & Hv & _).
    exists v, v. repeat split; (assumption || lia).
  - destruct (IH i Hlo ltac:(lia)) as (v & w & Hv & Hw & Hvw).
    destruct (stick_output c p (i + Z.of_nat n) H ltac:(lia))
      as (w0 & _ & w1 & Hw0 & _ & Hw1 & _ & Hle & _).
    rewrite Hw in Hw0. injection Hw0 as <-.
    exists v, w1. split; [exact Hv|]. split; [|lia].
    rewrite <- Hw1. f_equal. lia.
Qed.

(** X11.  For the curves of fixed shape (LINEAR, SQUARED, CUBED, PLATEAU,
    and PIECEWISE when [param > 0.01] is false, so that the breakpoint is
    its default 0.3) [applyCurve] never decreases: a larger input never
    gives a smaller output. *)
Theorem applyCurve_monotone (exp tanh : float -> float) (i j : Z)
    (c : CurveType) (p : float) :
  fixed_shape c p = true -> i <= j ->
  exists v w,
    applyCurve exp tanh i c p = Some v /\
    applyCurve exp tanh j c p = Some w /\ v <= w.
Proof.
  intros H Hij. rewrite !(fixed_shape_output exp tanh _ c p H).
  rewrite (curve_output_clamp c i), (curve_output_clamp c j).
  pose proof (clamp_stick i) as Hi. pose proof (clamp_stick j) as Hj.
  pose proof (clamp_monotone i j Hij) as Hm.
  destruct (curve_output_monotone c p
              (Z.to_nat (clamp j (-127) 127 - clamp i (-127) 127)) H
              (clamp i (-127) 127) ltac:(lia) ltac:(lia))
    as (v & w & Hv & Hw & Hvw).
  replace (clamp i (-127) 127
           + Z.of_nat (Z.to_nat (clamp j (-127) 127 - clamp i (-127) 127)))
    with (clamp j (-127) 127) in Hw by lia.
  exists v, w. repeat split; assumption.
Qed.

Lemma applyCurve_monotone_witness :
  exists v w,
    applyCurve (fun d => d) (fun d => d) (-30) CUBED 0%float = Some v /\
    applyCurve (fun d => d) (fun d => d) 90 CUBED 0%float = Some w /\
    v <= w.
Proof.
  apply (applyCurve_monotone (fun d => d) (fun d => d) (-30) 90 CUBED 0%float).
  - reflexivity.
  - lia.
Defined.

Lemma stick_ends (c : CurveType) (p : float) :
  fixed_shape c p = true ->
  forall i, -127 <= i <= 127 ->
    (fun i =>
       match curve_output c i with
       | Some v =>
           (if i =? 127 then v =? 127 else true)
           && (if i =? -127 then v =? -127 else true)
           && (if i =? 0 then v =? 0 else true)
           && (if 0 <? i then 0 <=? v else true)
           && (if i <? 0 then v <=? 0 else true)
       | None => false
       end) i = true.
Proof.
  intros H. apply fixed_shape_cases in H.
  destruct H as [-> | [-> | [-> | [-> | ->]]]];
    apply stick_range_forall; vm_compute; reflexivity.
Qed.

(** X12.  For the curves of fixed shape the output of [applyCurve] lies in
    [[-127, 127]], is 0 for the input 0, never has the sign opposite to the
    input's, and saturates: every input of 127 or more gives 127, every
    input of -127 or less gives -127. *)
Theorem applyCurve_ends (exp tanh : float -> float) (i : Z) (c : CurveType)
    (p : float) :
  fixed_shape c p = true ->
  exists v,
    applyCurve exp tanh i c p = Some v /\
    -127 <= v <= 127 /\
    (i = 0 -> v = 0) /\
    (0 < i -> 0 <= v) /\ (i < 0 -> v <= 0) /\
    (127 <= i -> v = 127) /\ (i <= -127 -> v = -127).
Proof.
  intros H. rewrite (fixed_shape_output exp tanh _ c p H).
  rewrite (curve_output_clamp c i).
  pose proof (clamp_stick i) as Hc.
  pose proof (stick_ends c p H _ Hc) as T. simpl in T.
  destruct (stick_output c p _ H Hc) as (v & _ & _ & Hv & _ & _ & _ & _ & Hr).
  rewrite Hv in T. exists v. split; [exact Hv|]. split; [exact Hr|].
  apply andb_true_iff in T as [T T5]. apply andb_true_iff in T as [T T4].
  apply andb_true_iff in T as [T T3]. apply andb_true_iff in T as [T1 T2].
  unfold clamp in *.
  destruct (Z.ltb_spec i (-127)); [|destruct (Z.ltb_spec 127 i)].
  - simpl in T2. repeat split; intros; lia.
  - simpl in T1. repeat split; intros; lia.
  - destruct (Z.eqb_spec i 127); destruct (Z.eqb_spec i (-127));
      destruct (Z.eqb_spec i 0); destruct (Z.ltb_spec 0 i);
      destruct (Z.ltb_spec i 0); repeat split; intros; lia.
Qed.

Lemma applyCurve_ends_witness :
  exists v,
    applyCurve (fun d => d) (fun d => d) 500 SQUARED 0%float = Some v /\
    (127 <= 500 -> v = 127).
Proof.
  destruct (applyCurve_ends (fun d => d) (fun d => d) 500 SQUARED 0%float
              eq_refl)
    as (v & Hv & _ & _ & _ & _ & Hs & _).
  exists v. split; [exact Hv | exact Hs].
Defined.

(** X13.  The LINEAR curve is the clamp: in binary64 the division by 127.0
    and the multiplication by 127.0 give the input back exactly for each
    of the 255 stick values, so the truncation loses nothing. *)
Theorem linear_is_clamp (exp tanh : float -> float) (i : Z) (p : float) :
  applyCurve exp tanh i LINEAR p = Some (clamp i (-127) 127).
Proof.
  rewrite (fixed_shape_output exp tanh i LINEAR p eq_refl).
  rewrite (curve_output_clamp LINEAR i).
  pose proof (stick_range_forall
                (fun i => match curve_output LINEAR i with
                          | Some v => v =? i
                          | None => false
                          end)) as T.
  specialize (T ltac:(vm_compute; reflexivity) _ (clamp_stick i)).
  simpl in T.
  destruct (curve_output LINEAR (clamp i (-127) 127)) as [v|];
    [|discriminate].
  apply Z.eqb_eq in T. now subst v.
Qed.

(** X14.  SQUARED and CUBED only weaken the stick: in magnitude the CUBED
    output is at most the SQUARED output, which is at most the clamped
    input.  Both have a dead zone around the centre: SQUARED gives 0
    exactly for the inputs of magnitude up to 11, CUBED exactly for those
    up to 25. *)
Theorem squared_cubed_gentler (exp tanh : float -> float) (i : Z)
    (p : float) :
  exists s c,
    applyCurve exp tanh i SQUARED p = Some s /\
    applyCurve exp tanh i CUBED p = Some c /\
    Z.abs c <= Z.abs s <= Z.abs (clamp i (-127) 127) /\
    (s = 0 <-> Z.abs i <= 11) /\
    (c = 0 <-> Z.abs i <= 25).
Proof.
  rewrite (fixed_shape_output exp tanh i SQUARED p eq_refl).
  rewrite (fixed_shape_output exp tanh i CUBED p eq_refl).
  rewrite (curve_output_clamp SQUARED i), (curve_output_clamp CUBED i).
  pose proof (stick_range_forall
                (fun i => match curve_output SQUARED i, curve_output CUBED i
                          with
                          | Some s, Some c =>
                              (Z.abs c <=? Z.abs s) && (Z.abs s <=? Z.abs i)
                              && Bool.eqb (s =? 0) (Z.abs i <=? 11)
                              && Bool.eqb (c =? 0) (Z.abs i <=? 25)
                          | _, _ => false
                          end)) as T.
  specialize (T ltac:(vm_compute; reflexivity) _ (clamp_stick i)).
  simpl in T.
  destruct (curve_output SQUARED (clamp i (-127) 127)) as [s|];
    [|discriminate].
  destruct (curve_output CUBED (clamp i (-127) 127)) as [c|];
    [|discriminate].
  apply andb_true_iff in T as [T T4]. apply andb_true_iff in T as [T T3].
  apply andb_true_iff in T as [T1 T2].
  apply Bool.eqb_prop in T3, T4.
  exists s, c. split; [reflexivity|]. split; [reflexivity|].
  split; [lia|].
  assert (Hc : Z.abs (clamp i (-127) 127) <= 25 <-> Z.abs i <= 25)
    by (unfold clamp; destruct (Z.ltb_spec i (-127));
        destruct (Z.ltb_spec 127 i); lia).
  assert (Hs : Z.abs (clamp i (-127) 127) <= 11 <-> Z.abs i <= 11)
    by (unfold clamp; destruct (Z.ltb_spec i (-127));
        destruct (Z.ltb_spec 127 i); lia).
  split.
  - rewrite <- Hs, <- Z.leb_le, <- T3. apply iff_sym, Z.eqb_eq.
  - rewrite <- Hc, <- Z.leb_le, <- T4. apply iff_sym, Z.eqb_eq.
Qed.

(** X15.  The plateau of the PLATEAU curve: the 54 inputs of magnitude 51
    to 104 (40% to 82% of the stick) give outputs of magnitude 83 to 101
    only; below them the magnitude of the output is at most 81, above them
    at least 102. *)
Theorem plateau_zone (exp tanh : float -> float) (i : Z) (p : float) :
  exists v,
    applyCurve exp tanh i PLATEAU p = Some v /\
    (51 <= Z.abs i <= 104 -> 83 <= Z.abs v <= 101) /\
    (Z.abs i <= 50 -> Z.abs v <= 81) /\
    (105 <= Z.abs i -> 102 <= Z.abs v).
Proof.
  rewrite (fixed_shape_output exp tanh i PLATEAU p eq_refl).
  rewrite (curve_output_clamp PLATEAU i).
  pose proof (stick_range_forall
                (fun i => match curve_output PLATEAU i with
                          | Some v =>
                              if Z.abs i <=? 50 then Z.abs v <=? 81
                              else if Z.abs i <=? 104
                                   then (83 <=? Z.abs v) && (Z.abs v <=? 101)
                                   else 102 <=? Z.abs v
                          | None => false
                          end)) as T.
  specialize (T ltac:(vm_compute; reflexivity) _ (clamp_stick i)).
  simpl in T.
  destruct (curve_output PLATEAU (clamp i (-127) 127)) as [v|];
    [|discriminate].
  exists v. split; [reflexivity|].
  unfold clamp in T.
  destruct (Z.ltb_spec i (-127)); [|destruct (Z.ltb_spec 127 i)].
  - simpl in T. repeat split; intros; lia.
  - simpl in T. repeat split; intros; lia.
  - destruct (Z.leb_spec (Z.abs i) 50); [|destruct (Z.leb_spec (Z.abs i) 104)].
    + repeat split; intros; lia.
    + apply andb_true_iff in T as [T1 T2]. repeat split; intros; lia.
    + repeat split; intros; lia.
Qed.

Lemma plateau_zone_witness :
  exists v,
    applyCurve (fun d => d) (fun d => d) (-77) PLATEAU 0%float = Some v /\
    83 <= Z.abs v <= 101.
Proof.
  destruct (plateau_zone (fun d => d) (fun d => d) (-77) 0%float)
    as (v & Hv & Hz & _).
  exists v. split; [exact Hv|]. apply Hz. lia.
Defined.

(** ** Cycling through the curves *)

Section Numbering.

Variable code : CurveType -> Z.
Hypothesis code_range : forall c, 0 <= code c < 7.
Hypothesis code_inj : forall c c', code c = code c' -> c = c'.

Lemma all_curves_complete (c : CurveType) : In c all_curves.
Proof. destruct c; simpl; tauto. Qed.

Lemma code_onto (z : Z) : 0 <= z < 7 -> exists c, code c = z.
Proof.
  intros Hz.
  assert (N : NoDup (map code all_curves)).
  { simpl. repeat constructor; simpl; intros H;
      repeat (destruct H as [H | H]; [apply code_inj in H; discriminate|]);
      exact H. }
  assert (I : incl (map code all_curves) [0; 1; 2; 3; 4; 5; 6]).
  { intros v Hv. apply in_map_iff in Hv as (c & <- & _).
    pose proof (code_range c). simpl. lia. }
  pose proof (NoDup_length_incl N (l' := [0; 1; 2; 3; 4; 5; 6])
                ltac:(simpl; lia) I) as J.
  assert (Hin : In z [0; 1; 2; 3; 4; 5; 6]) by (simpl; lia).
  apply J, in_map_iff in Hin as (c & Hc & _). now exists c.
Qed.

Lemma nextCurve_code (c : CurveType) :
  exists c', nextCurve code c = Some c' /\ code c' = (code c + 1) mod 7.
Proof.
  pose proof (code_range c) as Hc. unfold nextCurve.
  rewrite Z.rem_mod_nonneg by lia.
  destruct (code_onto ((code c + 1) mod 7)) as [c0 Hc0].
  { apply Z.mod_pos_bound. lia. }
  destruct (find _ all_curves) as [c'|] eqn:F.
  - exists c'. split; [reflexivity|].
    apply find_some in F as [_ F]. now apply Z.eqb_eq in F.
  - exfalso. pose proof (find_none _ _ F c0 (all_curves_complete c0)) as N.
    simpl in N. apply Z.eqb_neq in N. contradiction.
Qed.

Lemma nextCurve_iter_code (k : nat) (c : CurveType) :
  exists c', nextCurve_iter code k c = Some c' /\
             code c' = (code c + Z.of_nat k) mod 7.
Proof.
  induction k as [|k (c1 & H1 & E1)].
  - exists c. split; [reflexivity|]. rewrite Z.add_0_r.
    symmetry. apply Z.mod_small, code_range.
  - destruct (nextCurve_code c1) as (c2 & H2 & E2).
    exists c2. simpl. rewrite H1. split; [exact H2|].
    rewrite E2, E1, Zplus_mod_idemp_l. f_equal. lia.
Qed.

(** X16.  Whatever values in 0..6 the declaration of the enum gives the
    seven enumerators, [nextCurve] always returns an enumerator, and
    pressing it over and over cycles through all seven curves: seven
    applications lead back to the curve one started from, fewer do not. *)
Theorem nextCurve_cycle (c : CurveType) :
  (exists c', nextCurve code c = Some c' /\ c' <> c) /\
  nextCurve_iter code 7 c = Some c /\
  (forall k, (0 < k < 7)%nat -> nextCurve_iter code k c <> Some c).
Proof.
  pose proof (code_range c) as Hc. split; [|split].
  - destruct (nextCurve_code c) as (c' & H & E). exists c'.
    split; [exact H|]. intros ->.
    pose proof (Z.div_mod (code c + 1) 7 ltac:(lia)).
    pose proof (Z.mod_pos_bound (code c + 1) 7 ltac:(lia)). lia.
  - destruct (nextCurve_iter_code 7 c) as (c' & H & E). rewrite H. f_equal.
    apply code_inj. rewrite E.
    change (Z.of_nat 7) with (1 * 7). rewrite Z.mod_add by lia.
    apply Z.mod_small, code_range.
  - intros k Hk H. destruct (nextCurve_iter_code k c) as (c' & H' & E).
    rewrite H in H'. injection H' as <-.
    pose proof (Z.div_mod (code c + Z.of_nat k) 7 ltac:(lia)).
    pose proof (Z.mod_pos_bound (code c + Z.of_nat k) 7 ltac:(lia)). lia.
Qed.

End Numbering.

Lemma nextCurve_cycle_witness :
  nextCurve listed_code PLATEAU = Some LINEAR /\
  nextCurve_iter listed_code 7 EXPONENTIAL = Some EXPONENTIAL /\
  (forall k, (0 < k < 7)%nat ->
             nextCurve_iter listed_code k EXPONENTIAL <> Some EXPONENTIAL).
Proof.
  assert (R : forall c, 0 <= listed_code c < 7) by (destruct c; simpl; lia).
  assert (J : forall c c', listed_code c = listed_code c' -> c = c')
    by (destruct c, c'; simpl; intros; (reflexivity || discriminate)).
  split; [reflexivity|].
  exact (proj2 (nextCurve_cycle listed_code R J EXPONENTIAL)).
Defined.

(** X17.  The names shown for the curves tell them apart: two enumerators
    with the same name are the same enumerator. *)
Theorem getCurveName_injective (c c' : CurveType) :
  getCurveName c = getCurveName c' -> c = c'.
Proof.
  destruct c, c'; simpl; intros H; (reflexivity || discriminate).
Qed.

Lemma getCurveName_injective_witness :
  getCurveName S_CURVE = getCurveName S_CURVE /\ S_CURVE = S_CURVE.
Proof.
  split; [reflexivity|].
  exact (getCurveName_injective S_CURVE S_CURVE eq_refl).
Defined.

End CurveFacts.

(** * Outtake control *)

Module OuttakeFacts.
Import Outtake.
#[local] Open Scope Z_scope.

(** Case analysis on the flags of the controller, the buttons and the
    outcome of the unjam test. *)
Ltac outtake_cases uo s r :=
  destruct s as [[] [] [] [] t []]; destruct r as [ms [] []];
  unfold update, after_unjam; cbn;
  try (destruct (uo (ms 0%nat) t); cbn).

Lemma update_consistent (uo : Z -> Z -> bool) (r : Reads)
    (s : OuttakeControl) :
  consistent s -> consistent (fst (update uo r s)).
Proof.
  unfold consistent. intros [H1 H2].
  outtake_cases uo s r; cbn in *; split; intros; auto; try discriminate.
Qed.

Lemma cancelCombo_consistent (s : OuttakeControl) :
  consistent s -> consistent (fst (cancelCombo s)).
Proof. unfold consistent, cancelCombo. cbn. tauto. Qed.

(** X18.  In every state the controller reaches from its constructor by
    calls of [update] and [cancelCombo], whatever the buttons and the clock
    do, combo mode and mid-scoring mode are never on together, and an unjam
    is in progress only in mid-scoring mode. *)
Theorem reachable_consistent (uo : Z -> Z -> bool) (steps : list Step) :
  consistent (fold_left (step uo) steps constructed).
Proof.
  assert (G : forall s, consistent s ->
                        consistent (fold_left (step uo) steps s)).
  { induction steps as [|e steps IH]; intros s Hs; [exact Hs|].
    simpl. apply IH. destruct e; simpl.
    - now apply update_consistent.
    - now apply cancelCombo_consistent. }
  apply G. unfold consistent, constructed. cbn. split; discriminate.
Qed.

(** X19.  From a consistent state every call of [update] sends exactly one
    velocity to the outtake motor.  It is the velocity [getVelocity]
    reports afterwards, except in the call that enters mid-scoring mode,
    which sends 0 while [getVelocity] already reports -600. *)
Theorem update_outtake_velocity (uo : Z -> Z -> bool) (r : Reads)
    (s : OuttakeControl) :
  consistent s ->
  let s' := fst (update uo r s) in
  outtake_velocities (snd (update uo r s))
  = [if negb (midScoringMode s) && midScoringMode s' then 0
     else getVelocity s'].
Proof.
  unfold consistent. intros [H1 H2].
  outtake_cases uo s r; cbn in *; try reflexivity;
    try (specialize (H1 eq_refl); discriminate);
    try (specialize (H2 eq_refl); discriminate).
Qed.

Lemma update_outtake_velocity_witness :
  let r := mkReads (fun _ => 1000) true false in
  consistent constructed /\
  midScoringMode (fst (update unjam_over_uint32 r constructed)) = true /\
  getVelocity (fst (update unjam_over_uint32 r constructed)) = -600 /\
  outtake_velocities (snd (update unjam_over_uint32 r constructed)) = [0].
Proof.
  intros r.
  assert (H : consistent constructed)
    by (unfold consistent, constructed; cbn; split; discriminate).
  split; [exact H|]. split; [reflexivity|]. split; [reflexivity|].
  exact (update_outtake_velocity unjam_over_uint32 r constructed H).
Defined.

(** X20.  The modes change on rising edges only.  A call of [update]
    changes [midScoringMode] only when X is down and was up at the last
    call that looked at it, and turns [comboMode] on only outside
    mid-scoring mode, when L1 is down and was up; holding a button down
    never toggles a second time. *)
Theorem modes_change_on_rising_edges (uo : Z -> Z -> bool) (r : Reads)
    (s : OuttakeControl) :
  let s' := fst (update uo r s) in
  (midScoringMode s' <> midScoringMode s ->
   X r = true /\ X_lastState s = false) /\
  (comboMode s = false -> comboMode s' = true ->
   L1 r = true /\ L1_lastState s = false /\ midScoringMode s' = false) /\
  (X_lastState s = true -> midScoringMode s' = midScoringMode s) /\
  (L1_lastState s = true -> comboMode s = false -> comboMode s' = false).
Proof.
  outtake_cases uo s r; repeat split; intros; auto; try discriminate;
    try congruence.
Qed.

Lemma modes_change_on_rising_edges_witness :
  let r := mkReads (fun _ => 1000) true false in
  let s' := fst (update unjam_over_uint32 r constructed) in
  midScoringMode s' <> midScoringMode constructed /\
  X r = true /\ X_lastState constructed = false.
Proof.
  intros r s'.
  assert (H : midScoringMode s' <> midScoringMode constructed)
    by (cbn; discriminate).
  split; [exact H|].
  exact (proj1 (modes_change_on_rising_edges unjam_over_uint32 r constructed)
           H).
Defined.

(** The state in which a press of X puts a controller that was in normal
    mode. *)
Lemma enter_mid_scoring (uo : Z -> Z -> bool) (r : Reads)
    (s : OuttakeControl) :
  midScoringMode s = false -> isUnjamming s = false ->
  X_lastState s = false -> X r = true ->
  update uo r s
  = (mkOuttake false (L1_lastState s) true true (millis r 0) true,
     [MidScoring_set_value true; Outtake_move_velocity 0]).
Proof.
  destruct s as [c l m x t u]; destruct r as [ms rx rl]; cbn.
  intros -> -> -> ->. reflexivity.
Qed.

Lemma unjam_window_idle (uo : Z -> Z -> bool) (s : OuttakeControl)
    (rs : list Reads) :
  isUnjamming s = true ->
  (forall r, In r rs -> uo (millis r 0) (unjamStartTime s) = false) ->
  fold_left (fun s r => fst (update uo r s)) rs s = s /\
  forall r, In r rs ->
    update uo r s
    = (s, [Intake_move_velocity 600; Outtake_move_velocity (-600)]).
Proof.
  intros Hu Hw.
  assert (E : forall r, In r rs ->
                update uo r s
                = (s, [Intake_move_velocity 600;
                       Outtake_move_velocity (-600)])).
  { intros r Hr. unfold update. now rewrite Hu, (Hw r Hr). }
  split; [|exact E].
  induction rs as [|r rs IH]; [reflexivity|].
  simpl. rewrite (E r (or_introl eq_refl)). simpl.
  apply IH; intros r' Hr'; [apply Hw | apply E]; now right.
Qed.

(** X21.  While the unjam started by a press of X lasts (the test of line
    14 is false), [update] returns before it looks at the buttons: the
    state stays as the press left it and each call only runs the unjam
    (intake 600, outtake -600).  [X_lastState] therefore still says "down"
    when the unjam is over, and an X that is down then, even after a
    release and a new press during the unjam, does not leave mid-scoring
    mode. *)
Theorem press_during_unjam_is_lost (uo : Z -> Z -> bool)
    (s : OuttakeControl) (r1 : Reads) (rs : list Reads) (r2 : Reads) :
  midScoringMode s = false -> isUnjamming s = false ->
  X_lastState s = false -> X r1 = true ->
  (forall r, In r rs -> uo (millis r 0) (millis r1 0) = false) ->
  uo (millis r2 0) (millis r1 0) = true -> X r2 = true ->
  let s1 := fst (update uo r1 s) in
  let s2 := fold_left (fun s r => fst (update uo r s)) rs s1 in
  s2 = s1 /\
  (forall r, In r rs ->
     snd (update uo r s1)
     = [Intake_move_velocity 600; Outtake_move_velocity (-600)]) /\
  midScoringMode (fst (update uo r2 s2)) = true /\
  snd (update uo r2 s2)
  = [Intake_move_velocity (-600); Outtake_move_velocity (-600)].
Proof.
  intros Hm Hu Hx Hx1 Hw Ho Hx2 s1 s2.
  assert (E1 : s1 = mkOuttake false (L1_lastState s) true true
                      (millis r1 0) true)
    by (unfold s1; now rewrite (enter_mid_scoring uo r1 s Hm Hu Hx Hx1)).
  destruct (unjam_window_idle uo s1 rs) as [F E].
  { now rewrite E1. }
  { intros r Hr. rewrite E1. cbn. now apply Hw. }
  fold s2 in F. split; [exact F|]. split.
  { intros r Hr. now rewrite (E r Hr). }
  rewrite F, E1. unfold update. cbn. rewrite Ho.
  unfold after_unjam. cbn. rewrite Hx2. cbn. split; reflexivity.
Qed.

Lemma press_during_unjam_is_lost_witness :
  let r1 := mkReads (fun _ => 1000) true false in
  let released := mkReads (fun _ => 1020) false false in
  let pressed := mkReads (fun _ => 1040) true false in
  let r2 := mkReads (fun _ => 1200) true false in
  let s1 := fst (update unjam_over_uint32 r1 constructed) in
  let s2 := fold_left (fun s r => fst (update unjam_over_uint32 r s))
              [released; pressed] s1 in
  s2 = s1 /\
  midScoringMode (fst (update unjam_over_uint32 r2 s2)) = true.
Proof.
  intros r1 released pressed r2 s1 s2.
  destruct (press_during_unjam_is_lost unjam_over_uint32 constructed r1
              [released; pressed] r2)
    as (F & _ & M & _); try reflexivity.
  - intros r [<- | [<- | []]]; reflexivity.
  - split; [exact F | exact M].
Defined.

(** X22.  Two presses of X lead back to normal mode: a press from normal
    mode enters mid-scoring and retracts the piston; once the unjam is
    over and X was seen released, the next press extends the piston again,
    stops both motors and leaves the controller in normal mode with combo
    mode off. *)
Theorem double_press_round_trip (uo : Z -> Z -> bool) (s : OuttakeControl)
    (r1 r2 r3 : Reads) :
  midScoringMode s = false -> isUnjamming s = false ->
  X_lastState s = false -> X r1 = true ->
  uo (millis r2 0) (millis r1 0) = true -> X r2 = false ->
  X r3 = true ->
  let u1 := update uo r1 s in
  let u2 := update uo r2 (fst u1) in
  let u3 := update uo r3 (fst u2) in
  snd u1 = [MidScoring_set_value true; Outtake_move_velocity 0] /\
  snd u2 = [Intake_move_velocity (-600); Outtake_move_velocity (-600)] /\
  snd u3 = [MidScoring_set_value false; Intake_move_velocity 0;
            Outtake_move_velocity 0] /\
  midScoringMode (fst u3) = false /\ comboMode (fst u3) = false /\
  isUnjamming (fst u3) = false /\ getVelocity (fst u3) = 0.
Proof.
  intros Hm Hu Hx Hx1 Ho Hx2 Hx3 u1 u2 u3.
  assert (E1 : u1 = (mkOuttake false (L1_lastState s) true true
                       (millis r1 0) true,
                     [MidScoring_set_value true; Outtake_move_velocity 0]))
    by (unfold u1; now apply enter_mid_scoring).
  assert (E2 : u2 = (mkOuttake false (L1 r2) true false (millis r1 0) false,
                     [Intake_move_velocity (-600);
                      Outtake_move_velocity (-600)])).
  { unfold u2. rewrite E1. unfold update. cbn. rewrite Ho.
    unfold after_unjam. cbn. rewrite Hx2. reflexivity. }
  assert (E3 : u3 = (mkOuttake false (L1 r2) false true (millis r1 0) false,
                     [MidScoring_set_value false; Intake_move_velocity 0;
                      Outtake_move_velocity 0])).
  { unfold u3. rewrite E2. unfold update, after_unjam. cbn.
    rewrite Hx3. reflexivity. }
  rewrite E1, E2, E3. cbn. repeat split; reflexivity.
Qed.

Lemma double_press_round_trip_witness :
  let r1 := mkReads (fun _ => 1000) true false in
  let r2 := mkReads (fun _ => 1100) false false in
  let r3 := mkReads (fun _ => 5000) true true in
  let u1 := update unjam_over_uint32 r1 constructed in
  let u2 := update unjam_over_uint32 r2 (fst u1) in
  let u3 := update unjam_over_uint32 r3 (fst u2) in
  midScoringMode (fst u1) = true /\
  midScoringMode (fst u3) = false /\ getVelocity (fst u3) = 0.
Proof.
  intros r1 r2 r3 u1 u2 u3.
  destruct (double_press_round_trip unjam_over_uint32 constructed r1 r2 r3)
    as (_ & _ & _ & M & _ & _ & V); try reflexivity.
  split; [reflexivity|]. split; [exact M | exact V].
Defined.

End OuttakeFacts.

(** * shakeBot *)

Module ShakeFacts.
Import Shake.
#[local] Open Scope Z_scope.

Lemma shake_loop_runs (millis : nat -> Z) (d : Z) (j : nat) :
  forall (i : nat) (fuel : nat),
  (forall m, (i <= m < i + j)%nat -> shake_elapsed millis m < uint32 d) ->
  uint32 d <= shake_elapsed millis (i + j) ->
  (j < fuel)%nat ->
  shake_loop fuel millis (S i) (millis 0%nat) d
  = Some (concat (repeat shake_cycle j)).
Proof.
  unfold shake_elapsed.
  induction j as [|j IH]; intros i fuel Hlt Hge Hf.
  - destruct fuel as [|fuel]; [lia|]. rewrite Nat.add_0_r in Hge. simpl.
    destruct (Z.ltb_spec (uint32 (millis (S i) - millis 0%nat)) (uint32 d));
      [lia | reflexivity].
  - destruct fuel as [|fuel]; [lia|]. simpl.
    destruct (Z.ltb_spec (uint32 (millis (S i) - millis 0%nat)) (uint32 d))
      as [_ | H]; [|specialize (Hlt i ltac:(lia)); lia].
    rewrite (IH (S i) fuel); [reflexivity | | | lia].
    + intros m Hm. apply Hlt. lia.
    + now rewrite Nat.add_succ_comm.
Qed.

(** X23.  [shakeBot] shakes until the first test of its loop condition that
    sees the duration elapsed: if the [j]-th test is the first one at which
    the time since the start, as a [uint32_t], is not below the duration,
    the run makes exactly [j] left-right cycles (300 ms of delay each) and
    then brakes both sides.  In particular a duration of 0 only brakes. *)
Theorem shakeBot_stops_at_first_expiry (millis : nat -> Z) (d : Z)
    (j fuel : nat) :
  (forall m, (m < j)%nat -> shake_elapsed millis m < uint32 d) ->
  uint32 d <= shake_elapsed millis j ->
  (j < fuel)%nat ->
  shakeBot fuel millis d
  = Some (concat (repeat shake_cycle j) ++ [left_brake; right_brake]).
Proof.
  intros Hlt Hge Hf. unfold shakeBot.
  rewrite (shake_loop_runs millis d j 0 fuel); [reflexivity | | exact Hge
                                                | exact Hf].
  intros m Hm. apply Hlt. lia.
Qed.

Lemma shakeBot_stops_at_first_expiry_witness :
  let millis := fun k : nat => 5000 + 300 * Z.of_nat (Nat.pred k) in
  shakeBot 10 millis 500
  = Some (shake_cycle ++ shake_cycle ++ [left_brake; right_brake]).
Proof.
  intros millis.
  rewrite (shakeBot_stops_at_first_expiry millis 500 2 10).
  - reflexivity.
  - intros m Hm.
    assert (Hm' : m = 0%nat \/ m = 1%nat) by lia.
    destruct Hm' as [-> | ->]; vm_compute; reflexivity.
  - vm_compute. discriminate.
  - lia.
Defined.

(** X24.  A duration that is not positive is not skipped in both cases.
    With [durationMs = 0] the body is never entered and the motors are only
    braked.  A negative [durationMs] is converted to a [uint32_t] of at
    least 2^31: as long as the clock shows less than 2^31 ms since the
    start (24.8 days), every test of the condition succeeds and [shakeBot]
    does not return. *)
Theorem shakeBot_nonpositive_duration (millis : nat -> Z) (d : Z)
    (fuel : nat) :
  shakeBot (S fuel) millis 0 = Some [left_brake; right_brake] /\
  (-2147483648 <= d < 0 ->
   (forall j, shake_elapsed millis j < 2147483648) ->
   shakeBot fuel millis d = None).
Proof.
  split.
  - unfold shakeBot. simpl.
    destruct (Z.ltb_spec (uint32 (millis 1%nat - millis 0%nat)) (uint32 0));
      [|reflexivity].
    unfold uint32 in *.
    pose proof (Z.mod_pos_bound (millis 1%nat - millis 0%nat) 4294967296
                  ltac:(lia)).
    rewrite Z.mod_0_l in * by lia. lia.
  - intros Hd Hc. unfold shakeBot.
    assert (G : forall f i, shake_loop f millis (S i) (millis 0%nat) d = None).
    { induction f as [|f IH]; intros i; [reflexivity|]. simpl.
      assert (Hu : uint32 d = d + 4294967296).
      { unfold uint32. symmetry.
        apply (Z.mod_unique d 4294967296 (-1)); lia. }
      specialize (Hc i). unfold shake_elapsed in Hc.
      destruct (Z.ltb_spec (uint32 (millis (S i) - millis 0%nat)) (uint32 d));
        [|lia].
      now rewrite IH. }
    now rewrite G.
Qed.

Lemma shakeBot_nonpositive_duration_witness :
  let millis := fun k : nat => 5000 + Z.min (300 * Z.of_nat k) 2000000000 in
  shakeBot 1 millis 0 = Some [left_brake; right_brake] /\
  shakeBot 1000 millis (-1) = None.
Proof.
  intros millis.
  destruct (shakeBot_nonpositive_duration millis (-1) 0) as [H0 _].
  destruct (shakeBot_nonpositive_duration millis (-1) 1000) as [_ H1].
  split; [exact H0|]. apply H1; [lia|].
  intros j. unfold shake_elapsed, uint32, millis.
  rewrite Z.mod_small; lia.
Defined.

End ShakeFacts.
